(** * Flap damping of ringpop-node: a shallow embedding and its properties

    The development follows [lib/gossip/damper.js] (the damper: flapper
    and damped sets, damp-req fan-out, decision, expiration) and
    [server/protocol/damp_req.js] (the receive side of a damp-req).

    JavaScript objects used as maps ([this.flappers], [this.dampedMembers],
    [dampScoresByFlapper]) are association lists in insertion order: the
    keys are member addresses ("host:port"), which are neither array
    indices nor names of properties inherited from [Object.prototype], so
    a lookup finds own properties only and [Object.keys] lists the keys
    in the order they were first assigned; that order is what
    [getMembersToDamp] returns and what the expiry scan walks.  Numbers
    are integers ([Z]); [Date.now()] and the replies of the peers are
    inputs of the operations that read them.  Logging and statistics are
    left out; calls into the membership, the timers and the fan-out's
    continuation are recorded in the state. *)

From Stdlib Require Import List Bool ZArith Lia Permutation.
From Stdlib Require Import Strings.String.
From Stdlib Require QArith.
Import ListNotations.
Open Scope string_scope.
Open Scope list_scope.
Open Scope Z_scope.

(* ================================================================== *)
(** * Part I: the program                                              *)
(* ================================================================== *)

(** ** Objects keyed by strings *)

Module JsObject.

Definition t (V : Type) : Type := list (string * V).

Definition empty {V} : t V := [].

(** [o[k]]: the value of the own property [k], if there is one. *)
Fixpoint get {V} (k : string) (o : t V) : option V :=
  match o with
  | [] => None
  | (k', v) :: o' => if String.eqb k k' then Some v else get k o'
  end.

(** [o[k] = v]: an existing property keeps its place, a new one goes
    last. *)
Fixpoint set {V} (k : string) (v : V) (o : t V) : t V :=
  match o with
  | [] => [(k, v)]
  | (k', v') :: o' =>
      if String.eqb k k' then (k', v) :: o' else (k', v') :: set k v o'
  end.

(** [delete o[k]]. *)
Fixpoint del {V} (k : string) (o : t V) : t V :=
  match o with
  | [] => []
  | (k', v') :: o' =>
      if String.eqb k k' then del k o' else (k', v') :: del k o'
  end.

(** [Object.keys(o)]. *)
Definition keys {V} (o : t V) : list string := map fst o.

(** Truthiness of [o[k]] when every stored value is an object. *)
Definition has {V} (k : string) (o : t V) : bool :=
  match get k o with Some _ => true | None => false end.

(** An object has each own key once. *)
Definition wf {V} (o : t V) : Prop := NoDup (keys o).

End JsObject.

(** ** Values on the wire *)

(** A field that the code tests with [Array.isArray]. *)
Inductive Field (A : Type) : Type :=
| NotArray : Field A
| IsArray (items : list A) : Field A.
Arguments NotArray {A}.
Arguments IsArray {A} items.

(** One entry of a response's [scores]: [{member, dampScore}]. *)
Record Score : Type := mkScore {
  member : string;
  dampScore : Z
}.

(** A membership change piggybacked on a response; the damper only hands
    it on to [membership.update]. *)
Record Change : Type := mkChange {
  changeAddress : string;
  changeIncarnation : Z
}.

(** A damp-req response as the damper sees it; [dampReqAddr] is absent
    until the fan-out tags the response with the observer's address. *)
Record DampReqResponse : Type := mkResponse {
  scores : Field Score;
  changes : Field Change;
  dampReqAddr : option string
}.

(** The configuration keys the damper reads. *)
Record Config : Type := mkConfig {
  dampReqNVal : Z;
  dampReqRVal : Z;
  dampScoringSuppressLimit : Z;
  dampScoringSuppressDuration : Z;
  dampedMemberExpirationInterval : Z;
  dampTimerInterval : Z
}.

(** ** Damper.getMembersToDamp *)

Module Decision.

(** [dampScoresByFlapper[member] || []]: an array is always truthy. *)
Definition scoresOr (member : string)
    (dampScoresByFlapper : JsObject.t (list Score)) : list Score :=
  match JsObject.get member dampScoresByFlapper with
  | Some group => group
  | None => []
  end.

(** Body of the inner loop: push the score on its flapper's group. *)
Definition groupScore (dampScoresByFlapper : JsObject.t (list Score))
    (responseScore : Score) : JsObject.t (list Score) :=
  let member := member responseScore in
  let scores := scoresOr member dampScoresByFlapper in
  JsObject.set member (scores ++ [responseScore]) dampScoresByFlapper.

(** Body of the outer loop: a response whose [scores] is not an array
    is passed over. *)
Definition groupResponse (dampScoresByFlapper : JsObject.t (list Score))
    (dampReqResponse : DampReqResponse) : JsObject.t (list Score) :=
  match scores dampReqResponse with
  | NotArray => dampScoresByFlapper
  | IsArray responseScores =>
      fold_left groupScore responseScores dampScoresByFlapper
  end.

Definition groupAll (allResponses : list DampReqResponse)
  : JsObject.t (list Score) :=
  fold_left groupResponse allResponses JsObject.empty.

Definition scoresExceedSuppressLimit (config : Config)
    (scores : list Score) : bool :=
  let suppressLimit := dampScoringSuppressLimit config in
  forallb (fun score => suppressLimit <=? dampScore score) scores.

(** Body of the second loop, over [Object.keys(dampScoresByFlapper)]. *)
Definition pickMember (rVal : Z) (config : Config)
    (dampScoresByFlapper : JsObject.t (list Score))
    (membersToDamp : list string) (member : string) : list string :=
  match JsObject.get member dampScoresByFlapper with
  | Some scores =>
      if (rVal <=? Z.of_nat (List.length scores))
         && scoresExceedSuppressLimit config scores
      then membersToDamp ++ [member]
      else membersToDamp
  | None => membersToDamp
  end.

Definition getMembersToDamp (allResponses : list DampReqResponse)
    (rVal : Z) (config : Config) : list string :=
  let dampScoresByFlapper := groupAll allResponses in
  fold_left (pickMember rVal config dampScoresByFlapper)
            (JsObject.keys dampScoresByFlapper) [].

(** *** What the decision is compared with *)

(** Every score tuple of every response, in order of arrival; a
    response without a scores array has none. *)
Definition responseTuples (r : DampReqResponse) : list Score :=
  match scores r with
  | NotArray => []
  | IsArray l => l
  end.

Definition allTuples (rs : list DampReqResponse) : list Score :=
  flat_map responseTuples rs.

(** The tuples that name the address [a]. *)
Definition tuplesFor (a : string) (rs : list DampReqResponse)
  : list Score :=
  filter (fun s => String.eqb (member s) a) (allTuples rs).

(** The observers (tags put on by the fan-out) whose response has a
    tuple for [a], each once. *)
Definition reportsOn (a : string) (r : DampReqResponse) : bool :=
  existsb (fun s => String.eqb (member s) a) (responseTuples r).

Fixpoint observersOf (a : string) (rs : list DampReqResponse)
  : list string :=
  match rs with
  | [] => []
  | r :: rs' =>
      match dampReqAddr r with
      | Some o =>
          if reportsOn a r
             && negb (existsb (String.eqb o) (observersOf a rs'))
          then o :: observersOf a rs'
          else observersOf a rs'
      | None => observersOf a rs'
      end
  end.

End Decision.

(** ** The damper: flapper set, damped set and their timers *)

(** The [timers] module: [setTimeout] hands out a fresh handle and
    queues the task, [clearTimeout] takes it off the queue. *)
Module Timers.

(** The two closures the damper schedules. *)
Inductive Task : Type :=
| DampTimerTask          (* initiateSubprotocol, then schedule() *)
| ExpirationTimerTask.   (* _expireDampedMembers, then scheduleExpiration() *)

Record t : Type := mk {
  nextHandle : nat;
  scheduled : list (nat * (Task * Z))
}.

Definition init : t := mk 0 [].

Definition setTimeout (task : Task) (delay : Z) (tm : t) : nat * t :=
  (nextHandle tm,
   mk (S (nextHandle tm)) (scheduled tm ++ [(nextHandle tm, (task, delay))])).

Definition clearTimeout (handle : option nat) (tm : t) : t :=
  match handle with
  | None => tm
  | Some h =>
      mk (nextHandle tm)
         (filter (fun e => negb (Nat.eqb (fst e) h)) (scheduled tm))
  end.

Definition pending (handle : nat) (tm : t) : bool :=
  existsb (fun e => Nat.eqb (fst e) handle) (scheduled tm).

End Timers.

(** The two kinds of value that [_expireDampedMembers] compares with
    [===]: no array is strictly equal to a number. *)
Inductive JsValue : Type :=
| JsNumber (n : Z)
| JsArray (elems : list string).

Definition strictEquals (x y : JsValue) : bool :=
  match x, y with
  | JsNumber a, JsNumber b => a =? b
  | _, _ => false
  end.

Module Damper.

(** A flapper as the detector hands it over. *)
Record Flapper : Type := mkFlapper {
  address : string;
  observed_at : Z
}.

(** [removeFlapper] takes a flapper or its address. *)
Inductive FlapperOrAddress : Type :=
| OfFlapper (flapper : Flapper)
| OfAddress (addr : string).

(** A value of [this.dampedMembers]. *)
Record Damping : Type := mkDamping {
  timestamp : Z
}.

(** An entry of the [undampedMembers] report. *)
Record Undamped : Type := mkUndamped {
  undampedMember : string;
  timeDamped : Z
}.

(** The fields of a [Damper], the timers module it schedules on, and
    the addresses it passed to [membership.makeDamped]. *)
Record t : Type := mk {
  flappers : JsObject.t Flapper;
  dampTimer : option nat;
  isDampTimerEnabled : bool;
  dampedMembers : JsObject.t Damping;
  dampedMemberExpirationTimer : option nat;
  timers : Timers.t;
  madeDamped : list string
}.

(** [new Damper(opts)]. *)
Definition new : t :=
  mk JsObject.empty None false JsObject.empty None Timers.init [].

Definition _getFlapperAddrs (d : t) : list string :=
  JsObject.keys (flappers d).

Definition _getFlapperCount (d : t) : Z :=
  Z.of_nat (List.length (JsObject.keys (flappers d))).

(** [schedule()] inside [_startDampTimer]. *)
Definition schedule (config : Config) (d : t) : t :=
  if negb (isDampTimerEnabled d) then d
  else
    let (handle, tm) :=
      Timers.setTimeout Timers.DampTimerTask (dampTimerInterval config)
                        (timers d) in
    mk (flappers d) (Some handle) (isDampTimerEnabled d)
       (dampedMembers d) (dampedMemberExpirationTimer d) tm (madeDamped d).

Definition _startDampTimer (config : Config) (d : t) : t :=
  if isDampTimerEnabled d then d
  else
    schedule config
      (mk (flappers d) (dampTimer d) true (dampedMembers d)
          (dampedMemberExpirationTimer d) (timers d) (madeDamped d)).

Definition _stopDampTimer (d : t) : t :=
  if negb (isDampTimerEnabled d) then d
  else
    mk (flappers d) None false (dampedMembers d)
       (dampedMemberExpirationTimer d)
       (Timers.clearTimeout (dampTimer d) (timers d)) (madeDamped d).

Definition addFlapper (config : Config) (flapper : Flapper) (d : t) : t :=
  if JsObject.has (address flapper) (dampedMembers d) then d
  else if JsObject.has (address flapper) (flappers d) then d
  else
    let d :=
      mk (JsObject.set (address flapper) flapper (flappers d))
         (dampTimer d) (isDampTimerEnabled d) (dampedMembers d)
         (dampedMemberExpirationTimer d) (timers d) (madeDamped d) in
    if _getFlapperCount d =? 1 then _startDampTimer config d else d.

(** [flapper.address || flapper], used as a property key: a string has
    no [address], and an object with an empty address is itself the
    key, that is "[object Object]". *)
Definition addressOf (flapper : FlapperOrAddress) : string :=
  match flapper with
  | OfFlapper f =>
      if String.eqb (address f) "" then "[object Object]" else address f
  | OfAddress a => a
  end.

Definition removeFlapper (flapper : FlapperOrAddress) (d : t) : t :=
  let address := addressOf flapper in
  if negb (JsObject.has address (flappers d)) then d
  else
    let d :=
      mk (JsObject.del address (flappers d))
         (dampTimer d) (isDampTimerEnabled d) (dampedMembers d)
         (dampedMemberExpirationTimer d) (timers d) (madeDamped d) in
    if _getFlapperCount d =? 0 then _stopDampTimer d else d.

(** [scheduleExpiration()] inside [_dampMember]. *)
Definition scheduleExpiration (config : Config) (d : t) : t :=
  let (handle, tm) :=
    Timers.setTimeout Timers.ExpirationTimerTask
                      (dampedMemberExpirationInterval config) (timers d) in
  mk (flappers d) (dampTimer d) (isDampTimerEnabled d) (dampedMembers d)
     (Some handle) tm (madeDamped d).

(** [_dampMember(memberAddr)]; [now] is what [Date.now()] returns. *)
Definition _dampMember (config : Config) (memberAddr : string) (now : Z)
    (d : t) : t :=
  let d :=
    mk (flappers d) (dampTimer d) (isDampTimerEnabled d) (dampedMembers d)
       (dampedMemberExpirationTimer d) (timers d)
       (madeDamped d ++ [memberAddr]) in
  let d := removeFlapper (OfAddress memberAddr) d in
  let d :=
    mk (flappers d) (dampTimer d) (isDampTimerEnabled d)
       (JsObject.set memberAddr (mkDamping now) (dampedMembers d))
       (dampedMemberExpirationTimer d) (timers d) (madeDamped d) in
  match dampedMemberExpirationTimer d with
  | None => scheduleExpiration config d
  | Some _ => d
  end.

(** The scan of [_expireDampedMembers] over the keys listed before it
    starts; [now i] is what [Date.now()] returns in iteration [i]. *)
Fixpoint expireScan (suppressDuration : Z) (now : nat -> Z) (i : nat)
    (keys : list string)
    (dampedMembers : JsObject.t Damping) (undampedMembers : list Undamped)
  : JsObject.t Damping * list Undamped :=
  match keys with
  | [] => (dampedMembers, undampedMembers)
  | key :: keys' =>
      match JsObject.get key dampedMembers with
      | Some memberDamping =>
          let dampedDuration := now i - timestamp memberDamping in
          if suppressDuration <=? dampedDuration
          then expireScan suppressDuration now (S i) keys'
                 (JsObject.del key dampedMembers)
                 (undampedMembers ++ [mkUndamped key dampedDuration])
          else expireScan suppressDuration now (S i) keys'
                 dampedMembers undampedMembers
      | None =>
          (* a listed key is still there: only the key under the
             cursor is ever deleted *)
          expireScan suppressDuration now (S i) keys'
                     dampedMembers undampedMembers
      end
  end.

(** [_expireDampedMembers()]: the damper afterwards, and the
    [undampedMembers] it reports to the log. *)
Definition _expireDampedMembers (config : Config) (now : nat -> Z) (d : t)
  : t * list Undamped :=
  let suppressDuration := dampScoringSuppressDuration config in
  let keys := JsObject.keys (dampedMembers d) in
  let (remaining, undampedMembers) :=
    expireScan suppressDuration now 0 keys (dampedMembers d) [] in
  let d :=
    mk (flappers d) (dampTimer d) (isDampTimerEnabled d) remaining
       (dampedMemberExpirationTimer d) (timers d) (madeDamped d) in
  if strictEquals (JsArray (JsObject.keys (dampedMembers d))) (JsNumber 0)
  then
    (mk (flappers d) (dampTimer d) (isDampTimerEnabled d)
        (dampedMembers d) None
        (Timers.clearTimeout (dampedMemberExpirationTimer d) (timers d))
        (madeDamped d),
     undampedMembers)
  else (d, undampedMembers).

(** *** Sequences of operations *)

Inductive Op : Type :=
| AddFlapper (flapper : Flapper)
| RemoveFlapper (flapper : FlapperOrAddress)
| DampMember (memberAddr : string) (now : Z)
| ExpireDampedMembers (now : nat -> Z).

Definition step (config : Config) (d : t) (op : Op) : t :=
  match op with
  | AddFlapper f => addFlapper config f d
  | RemoveFlapper f => removeFlapper f d
  | DampMember a now => _dampMember config a now d
  | ExpireDampedMembers now => fst (_expireDampedMembers config now d)
  end.

Definition run (config : Config) (ops : list Op) (d : t) : t :=
  fold_left (step config) ops d.

(** No address is both a flapper and damped. *)
Definition disjoint (d : t) : Prop :=
  forall a, In a (JsObject.keys (flappers d)) ->
            In a (JsObject.keys (dampedMembers d)) -> False.

End Damper.

(** ** The membership table, as far as the damping code reads it *)

Module Membership.

Record Member : Type := mkMember {
  address : string;
  dampScore : Z
}.

End Membership.

(** ** Damper.prototype._fanoutDampReqs *)

Module Fanout.

(** The error of a failed damp-req, as the client reports it. *)
Definition RequestError : Type := string.

(** What the client passes to [onDampReq]: a truthy [err], or a
    response. *)
Inductive Reply : Type :=
| Failed (err : RequestError)
| Answered (res : DampReqResponse).

(** [UnattainableRValError({flappers, rVal, errors})]. *)
Module RValError.
Record t : Type := mk {
  type : string;
  message : string;
  flappers : list string;
  rVal : Z;
  errors : list RequestError
}.
End RValError.

Definition UnattainableRValError (flapperAddrs : list string) (rVal : Z)
    (errors : list RequestError) : RValError.t :=
  RValError.mk "ringpop.damping.unattainable-rval"
               "Unable to attain damp-req r-val"
               flapperAddrs rVal errors.

(** One call of the continuation: [callback(null, results)] or
    [callback(err)]. *)
Inductive Invocation : Type :=
| Results (results : list DampReqResponse)
| Unattainable (err : RValError.t).

(** The variables that the closures [onDampReq] share, and what the
    fan-out has done to the outside: the damp-reqs sent, the changes
    passed to [membership.update], the calls of the continuation.
    [callbackLive] is [typeof callback === 'function']. *)
Record State : Type := mk {
  callbackLive : bool;
  numPendingReqs : Z;
  errors : list RequestError;
  results : list DampReqResponse;
  sent : list (string * list string);
  membershipUpdates : list (list Change);
  invocations : list Invocation
}.

(** [_fanoutDampReqs(flapperAddrs, dampReqMembers, rVal, callback)] up
    to its return: one damp-req per member, each carrying the flapper
    addresses, then [numPendingReqs], [errors] and [results] are set.
    The client answers asynchronously: the replies come after the
    return, through [onDampReq]. *)
Definition _fanoutDampReqs (flapperAddrs : list string)
    (dampReqMembers : list Membership.Member) (rVal : Z) : State :=
  mk true
     (Z.of_nat (List.length dampReqMembers))
     [] []
     (map (fun m => (Membership.address m, flapperAddrs)) dampReqMembers)
     [] [].

(** [res.dampReqAddr = addr]. *)
Definition enrich (addr : string) (res : DampReqResponse)
  : DampReqResponse :=
  mkResponse (scores res) (changes res) (Some addr).

(** [dampReqCallback(addr)], applied to the reply of [addr]. *)
Definition onDampReq (flapperAddrs : list string) (rVal : Z)
    (addr : string) (reply : Reply) (st : State) : State :=
  (* Prevents double-callback *)
  if negb (callbackLive st) then st
  else
    let numPendingReqs := numPendingReqs st - 1 in
    let '(errors, results, updates) :=
      match reply with
      | Failed err =>
          (errors st ++ [err], results st, membershipUpdates st)
      | Answered res =>
          let updates :=
            match changes res with
            | IsArray cs => membershipUpdates st ++ [cs]
            | NotArray => membershipUpdates st
            end in
          (errors st, results st ++ [enrich addr res], updates)
      end in
    (* The first rVal requests will be reported. *)
    if rVal <=? Z.of_nat (List.length results) then
      mk false numPendingReqs errors results (sent st) updates
         (invocations st ++ [Results results])
    else if numPendingReqs <? rVal - Z.of_nat (List.length results) then
      mk false numPendingReqs errors results (sent st) updates
         (invocations st ++
            [Unattainable (UnattainableRValError flapperAddrs rVal errors)])
    else
      mk true numPendingReqs errors results (sent st) updates
         (invocations st).

(** The replies in the order they arrive, each with the address of the
    member that was asked. *)
Definition deliver (flapperAddrs : list string) (rVal : Z)
    (replies : list (string * Reply)) (st : State) : State :=
  fold_left (fun st r => onDampReq flapperAddrs rVal (fst r) (snd r) st)
            replies st.

(** The errors among some replies, in order. *)
Definition failures (replies : list (string * Reply))
  : list RequestError :=
  flat_map (fun r => match snd r with
                     | Failed err => [err]
                     | Answered _ => []
                     end) replies.

(** The test of the early abort: fewer requests are pending than
    successes are missing. *)
Definition quorumOutOfReach (rVal : Z) (st : State) : Prop :=
  numPendingReqs st < rVal - Z.of_nat (List.length (results st)).

End Fanout.

(** ** The damp-req handler of the receiving side *)

Module Handler.

(** The request body after [safeParse]: nothing that parses, or an
    object whose [flappers] property is absent, present and not an
    array, or an array of addresses. *)
Inductive Body : Type :=
| Unparsed
| Parsed (flappers : option (Field string)).

Inductive TransportError : Type :=
| Invalid                    (* raised by validateRequest *)
| Message (text : string).   (* new Error(text) *)

(** The one call of [callback]: [callback(err)] or
    [callback(null, null, JSON.stringify(new DampReqResponse(ringpop,
    body, scores)))]. *)
Inductive Outcome : Type :=
| Rejected (err : TransportError)
| Responded (scores : list Score).

(** Modelled from the spec: [validateRequest] of request_response.js,
    which is not among the sources.  A body without the required
    [flappers] field (or no body at all) is rejected with a
    transport-level error, passed to the callback; the result is the
    error, if any. *)
Definition validateRequest (body : Body) : option TransportError :=
  match body with
  | Unparsed => Some Invalid
  | Parsed None => Some Invalid
  | Parsed (Some _) => None
  end.

(** The function given to [flappers.reduce]. *)
Definition reduce
    (findMemberByAddress : string -> option Membership.Member)
    (result : list Score) (flapper : string) : list Score :=
  match findMemberByAddress flapper with
  | None => result
  | Some member =>
      result ++ [mkScore (Membership.address member)
                         (Membership.dampScore member)]
  end.

(** [handleDampReq], over the membership's [findMemberByAddress]. *)
Definition handleDampReq
    (findMemberByAddress : string -> option Membership.Member)
    (body : Body) : Outcome :=
  match validateRequest body with
  | Some err => Rejected err
  | None =>
      match body with
      | Parsed (Some (IsArray flappers)) =>
          Responded (fold_left (reduce findMemberByAddress) flappers [])
      | _ => Rejected (Message "Bad request: flappers is not an Array")
      end
  end.

(** The tuple the handler makes of a member. *)
Definition scoreOf (m : Membership.Member) : Score :=
  mkScore (Membership.address m) (Membership.dampScore m).

End Handler.

(** ** Inputs of the scenarios *)

Module Scenario.

(** n-val 3, r-val 2, suppress limit 100, suppress duration 1000 ms,
    expiration every 100 ms, damp timer every second. *)
Definition config : Config := mkConfig 3 2 100 1000 100 1000.

Definition x : string := "10.0.0.9:3000".
Definition y : string := "10.0.0.8:3000".
Definition observerA : string := "10.0.0.1:3000".
Definition observerB : string := "10.0.0.2:3000".
Definition observerC : string := "10.0.0.3:3000".

Definition observers : list Membership.Member :=
  [Membership.mkMember observerA 0; Membership.mkMember observerB 0;
   Membership.mkMember observerC 0].

(** The successful damp: A, B and C report 150, 200 and 120 on [x]. *)
Definition reportOf (observer : string) (score : Z) : DampReqResponse :=
  mkResponse (IsArray [mkScore x score]) NotArray (Some observer).

Definition unanimous : list DampReqResponse :=
  [reportOf observerA 150; reportOf observerB 200; reportOf observerC 120].

Definition reordered : list DampReqResponse :=
  [reportOf observerC 120; reportOf observerA 150; reportOf observerB 200].

(** One high score, the rest low. *)
Definition oneHigh : list DampReqResponse :=
  [reportOf observerA 200; reportOf observerB 50; reportOf observerC 50].

(** Two observers that list [x] and [y] in different orders. *)
Definition listsXY : DampReqResponse :=
  mkResponse (IsArray [mkScore x 150; mkScore y 150]) NotArray
             (Some observerA).

Definition listsYX : DampReqResponse :=
  mkResponse (IsArray [mkScore y 150; mkScore x 150]) NotArray
             (Some observerB).

(** A response whose [scores] is an object, as the unit test sends. *)
Definition scoresNotArray : DampReqResponse :=
  mkResponse NotArray NotArray (Some observerC).

(** One observer that lists [x] twice. *)
Definition doubled : DampReqResponse :=
  mkResponse (IsArray [mkScore x 150; mkScore x 200]) NotArray
             (Some observerA).

(** Replies as the client delivers them, before the fan-out tags
    them. *)
Definition change : Change := mkChange y 7.

Definition plain (score : Z) : DampReqResponse :=
  mkResponse (IsArray [mkScore x score]) NotArray None.

Definition gossiping (score : Z) : DampReqResponse :=
  mkResponse (IsArray [mkScore x score]) (IsArray [change]) None.

Definition twoObservers : list Membership.Member :=
  [Membership.mkMember observerA 0; Membership.mkMember observerB 0].

(** The local membership table of the receiving side: it knows [x]
    with damp score 42 and nobody else. *)
Definition findMemberByAddress (addr : string)
  : option Membership.Member :=
  if String.eqb addr x then Some (Membership.mkMember x 42) else None.

End Scenario.

(** ** Views of the inputs that the further properties speak of *)

Module View.

(** The addresses of a list, each once, in the order of their first
    appearance. *)
Definition firstSeen (addrs : list string) : list string :=
  fold_left (fun seen a =>
               if existsb (String.eqb a) seen then seen else seen ++ [a])
            addrs [].

(** The test of the second loop of [getMembersToDamp], on the tuples that
    name an address. *)
Definition qualifies (rs : list DampReqResponse) (rVal : Z)
    (config : Config) (a : string) : bool :=
  (rVal <=? Z.of_nat (List.length (Decision.tuplesFor a rs)))
  && forallb (fun s => dampScoringSuppressLimit config <=? dampScore s)
             (Decision.tuplesFor a rs).

(** The successful replies, each tagged with the member that sent it, in
    order of arrival. *)
Definition answered (replies : list (string * Fanout.Reply))
  : list DampReqResponse :=
  flat_map (fun r => match snd r with
                     | Fanout.Answered res => [Fanout.enrich (fst r) res]
                     | Fanout.Failed _ => []
                     end) replies.

(** The changes arrays of the successful replies, in order of arrival. *)
Definition piggybacked (replies : list (string * Fanout.Reply))
  : list (list Change) :=
  flat_map (fun r => match snd r with
                     | Fanout.Answered res =>
                         match changes res with
                         | IsArray cs => [cs]
                         | NotArray => []
                         end
                     | Fanout.Failed _ => []
                     end) replies.

(** The flappers of a request that the membership knows. *)
Definition known (findMemberByAddress : string -> option Membership.Member)
    (flappers : list string) : list string :=
  filter (fun f => match findMemberByAddress f with
                   | Some _ => true
                   | None => false
                   end) flappers.

End View.

(** ** The damper on the event loop: timers that fire, rounds of the
    subprotocol, replies that arrive

    The listeners of the damper's events and the logger are taken not
    to call back into the damper. *)

Module Node.

(** The events of events.js that the damper emits. *)
Inductive Event : Type :=
| DampedLimitExceededEvent
| DampReqUnsatisfiedEvent
| DampReqFailedEvent
| DampedEvent.

(** What the membership answers when a round is initiated:
    [getDampedPercentage()] and [getRandomPingableMembers(n, excluding)].
    A percentage is a finite number, taken as a rational. *)
Record Answers : Type := mkAnswers {
  getDampedPercentage : QArith_base.Q;
  getRandomPingableMembers : Z -> list string -> list Membership.Member
}.

(** A fan-out that [initiateSubprotocol] has started: the variables its
    continuation [onDampReqs] closes over, and the state of
    [_fanoutDampReqs]. *)
Record Flight : Type := mkFlight {
  flapperAddrs : list string;
  dampReqMembers : list Membership.Member;
  rVal : Z;
  closure : Fanout.State
}.

(** The damper, the events it has emitted and the fan-outs it has
    started, oldest first. *)
Record t : Type := mk {
  damper : Damper.t;
  emitted : list Event;
  flights : list Flight
}.

Definition start : t := mk Damper.new [] [].

Definition emit (e : Event) (w : t) : t :=
  mk (damper w) (emitted w ++ [e]) (flights w).

Definition onDamper (f : Damper.t -> Damper.t) (w : t) : t :=
  mk (f (damper w)) (emitted w) (flights w).

(** [a < b] on numbers. *)
Definition lessThan (a b : QArith_base.Q) : bool :=
  negb (QArith_base.Qle_bool b a).

(** [_validateDampedClusterLimits()]; [dampedMax] is the configured
    [dampedMaxPercentage]. *)
Definition _validateDampedClusterLimits (dampedMax : QArith_base.Q)
    (answers : Answers) (w : t) : bool * t :=
  let dampedCurrent := getDampedPercentage answers in
  if lessThan dampedCurrent dampedMax then (true, w)
  else (false, emit DampedLimitExceededEvent w).

(** [initiateSubprotocol(callback)] up to its return: the round is
    skipped, or a fan-out is started whose continuation is
    [onDampReqs]. *)
Definition initiateSubprotocol (config : Config)
    (dampedMax : QArith_base.Q) (answers : Answers) (w : t) : t :=
  let (valid, w) := _validateDampedClusterLimits dampedMax answers w in
  if negb valid then w
  else
    let flapperAddrs := Damper._getFlapperAddrs (damper w) in
    let nVal := dampReqNVal config in
    let dampReqMembers :=
      getRandomPingableMembers answers nVal flapperAddrs in
    let rVal :=
      Z.min (dampReqRVal config) (Z.of_nat (List.length dampReqMembers)) in
    if rVal =? 0 then emit DampReqUnsatisfiedEvent w
    else
      mk (damper w) (emitted w)
         (flights w ++
            [mkFlight flapperAddrs dampReqMembers rVal
               (Fanout._fanoutDampReqs flapperAddrs dampReqMembers rVal)]).

(** The loop over [membersToDamp]; [now i] is what [Date.now()] returns
    in the [i]-th call of [_dampMember]. *)
Fixpoint dampAll (config : Config) (now : nat -> Z) (i : nat)
    (membersToDamp : list string) (d : Damper.t) : Damper.t :=
  match membersToDamp with
  | [] => d
  | memberAddr :: rest =>
      dampAll config now (S i) rest
              (Damper._dampMember config memberAddr (now i) d)
  end.

(** [onDampReqs(err, res)], the continuation of a fan-out started by
    the damp timer, whose [callback] is [onSubprotocol], that is
    [schedule()]. *)
Definition onDampReqs (config : Config) (now : nat -> Z) (rVal : Z)
    (inv : Fanout.Invocation) (w : t) : t :=
  match inv with
  | Fanout.Unattainable err =>
      onDamper (Damper.schedule config) (emit DampReqFailedEvent w)
  | Fanout.Results res =>
      let membersToDamp := Decision.getMembersToDamp res rVal config in
      if Z.of_nat (List.length membersToDamp) =? 0 then w
      else
        let w := onDamper (dampAll config now 0 membersToDamp) w in
        onDamper (Damper.schedule config) (emit DampedEvent w)
  end.

(** The task scheduled under a handle, if it is still to fire. *)
Definition taskOf (handle : nat) (tm : Timers.t) : option Timers.Task :=
  match find (fun e => Nat.eqb (fst e) handle) (Timers.scheduled tm) with
  | Some e => Some (fst (snd e))
  | None => None
  end.

(** A timeout that fires leaves the queue. *)
Definition fired (handle : nat) (d : Damper.t) : Damper.t :=
  Damper.mk (Damper.flappers d) (Damper.dampTimer d)
            (Damper.isDampTimerEnabled d) (Damper.dampedMembers d)
            (Damper.dampedMemberExpirationTimer d)
            (Timers.clearTimeout (Some handle) (Damper.timers d))
            (Damper.madeDamped d).

(** [onTimeout] of [scheduleExpiration]. *)
Definition onExpirationTimeout (config : Config) (now : nat -> Z)
    (d : Damper.t) : Damper.t :=
  Damper.scheduleExpiration config
    (fst (Damper._expireDampedMembers config now d)).

(** What happens on the event loop. *)
Inductive Step : Type :=
| AddFlapper (flapper : Damper.Flapper)
| RemoveFlapper (flapper : Damper.FlapperOrAddress)
| Timeout (handle : nat) (answers : Answers) (now : nat -> Z)
| Reply (flight : nat) (addr : string) (reply : Fanout.Reply)
        (now : nat -> Z).

Definition setClosure (i : nat) (c : Fanout.State) (fs : list Flight)
  : list Flight :=
  match nth_error fs i with
  | Some f =>
      firstn i fs
      ++ mkFlight (flapperAddrs f) (dampReqMembers f) (rVal f) c
      :: skipn (S i) fs
  | None => fs
  end.

(** A reply reaches the [onDampReq] of its fan-out; if that calls the
    continuation, [onDampReqs] runs at once. *)
Definition reply (config : Config) (i : nat) (addr : string)
    (r : Fanout.Reply) (now : nat -> Z) (w : t) : t :=
  match nth_error (flights w) i with
  | None => w
  | Some f =>
      let c := Fanout.onDampReq (flapperAddrs f) (rVal f) addr r
                                (closure f) in
      let w := mk (damper w) (emitted w) (setClosure i c (flights w)) in
      fold_left (fun w inv => onDampReqs config now (rVal f) inv w)
                (skipn (List.length (Fanout.invocations (closure f)))
                       (Fanout.invocations c))
                w
  end.

(** A scheduled timeout fires: the damp timer initiates a round, the
    expiration timer scans and re-arms itself.  A handle that is not
    scheduled does not fire. *)
Definition timeout (config : Config) (dampedMax : QArith_base.Q)
    (handle : nat) (answers : Answers) (now : nat -> Z) (w : t) : t :=
  match taskOf handle (Damper.timers (damper w)) with
  | None => w
  | Some Timers.DampTimerTask =>
      initiateSubprotocol config dampedMax answers
                          (onDamper (fired handle) w)
  | Some Timers.ExpirationTimerTask =>
      onDamper (onExpirationTimeout config now) (onDamper (fired handle) w)
  end.

Definition step (config : Config) (dampedMax : QArith_base.Q) (w : t)
    (s : Step) : t :=
  match s with
  | AddFlapper f => onDamper (Damper.addFlapper config f) w
  | RemoveFlapper f => onDamper (Damper.removeFlapper f) w
  | Timeout h answers now => timeout config dampedMax h answers now w
  | Reply i addr r now => reply config i addr r now w
  end.

Definition run (config : Config) (dampedMax : QArith_base.Q)
    (steps : list Step) (w : t) : t :=
  fold_left (step config dampedMax) steps w.

(** *** What holds of the damper all along *)

(** Handles are handed out once and in increasing order. *)
Definition timersOk (tm : Timers.t) : Prop :=
  NoDup (map fst (Timers.scheduled tm)) /\
  forall h, In h (map fst (Timers.scheduled tm)) ->
            (h < Timers.nextHandle tm)%nat.

(** The damp timer is enabled exactly while there are flappers, and a
    handle is stored exactly while it is enabled. *)
Definition dampTimerOk (d : Damper.t) : Prop :=
  Damper.isDampTimerEnabled d = negb (Damper._getFlapperCount d =? 0) /\
  match Damper.dampTimer d with
  | None => Damper.isDampTimerEnabled d = false
  | Some h =>
      Damper.isDampTimerEnabled d = true /\
      (h < Timers.nextHandle (Damper.timers d))%nat /\
      taskOf h (Damper.timers d) <> Some Timers.ExpirationTimerTask
  end.

(** Before the first damping there is no expiration task; from then on
    there is exactly one, under the stored handle. *)
Definition expirationOk (d : Damper.t) : Prop :=
  match Damper.dampedMemberExpirationTimer d with
  | None =>
      Damper.dampedMembers d = JsObject.empty /\
      forall h, taskOf h (Damper.timers d)
                <> Some Timers.ExpirationTimerTask
  | Some h =>
      forall h', taskOf h' (Damper.timers d)
                 = Some Timers.ExpirationTimerTask <-> h' = h
  end.

Definition sound (d : Damper.t) : Prop :=
  JsObject.wf (Damper.flappers d) /\
  JsObject.wf (Damper.dampedMembers d) /\
  Damper.disjoint d /\
  timersOk (Damper.timers d) /\
  dampTimerOk d /\
  expirationOk d.

(** Every fan-out is where some replies have brought it. *)
Definition flightOk (f : Flight) : Prop :=
  exists replies,
    closure f =
    Fanout.deliver (flapperAddrs f) (rVal f) replies
      (Fanout._fanoutDampReqs (flapperAddrs f) (dampReqMembers f) (rVal f)).

End Node.

(** ** Inputs of the event-loop scenarios *)

Module Cases.

(** The detector reports [x]. *)
Definition flapperX : Damper.Flapper := Damper.mkFlapper Scenario.x 5.

(** The configured [dampedMaxPercentage]: one half. *)
Definition dampedMax : QArith_base.Q := QArith_base.Qmake 1 2.

(** The membership has nothing damped and selects the three
    observers. *)
Definition calm : Node.Answers :=
  Node.mkAnswers (QArith_base.Qmake 0 1) (fun _ _ => Scenario.observers).

(** The membership has three quarters of the cluster damped. *)
Definition saturated : Node.Answers :=
  Node.mkAnswers (QArith_base.Qmake 3 4) (fun _ _ => Scenario.observers).

Definition clock : nat -> Z := fun _ => 0.

(** [x] is flapping and the damp timer is armed. *)
Definition flapping : list Node.Step := [Node.AddFlapper flapperX].

(** The damp timer has fired and a fan-out to the three observers is
    under way. *)
Definition asking : list Node.Step :=
  flapping ++ [Node.Timeout 0 calm clock].

(** Observer A has answered with a low score. *)
Definition oneLow : list Node.Step :=
  asking ++ [Node.Reply 0 Scenario.observerA
               (Fanout.Answered (Scenario.plain 50)) clock].

(** The fan-out of [asking], and the same after the answer of A. *)
Definition asked : Node.Flight :=
  Node.mkFlight [Scenario.x] Scenario.observers 2
    (Fanout._fanoutDampReqs [Scenario.x] Scenario.observers 2).

Definition askedOnce : Node.Flight :=
  Node.mkFlight [Scenario.x] Scenario.observers 2
    (Fanout.onDampReq [Scenario.x] 2 Scenario.observerA
       (Fanout.Answered (Scenario.plain 50))
       (Fanout._fanoutDampReqs [Scenario.x] Scenario.observers 2)).

(** Replies of a whole fan-out: B fails, A and C succeed. *)
Definition replies : list (string * Fanout.Reply) :=
  [(Scenario.observerB, Fanout.Failed "timeout");
   (Scenario.observerA, Fanout.Answered (Scenario.plain 150));
   (Scenario.observerC, Fanout.Answered (Scenario.gossiping 200))].

End Cases.

(* ================================================================== *)
(** * Part II: properties                                              *)
(* ================================================================== *)

(** ** Objects *)

Section JsObjectFacts.
Context {V : Type}.
Implicit Types (o : JsObject.t V) (k : string) (v : V).

Lemma get_set_same k v o : JsObject.get k (JsObject.set k v o) = Some v.
Proof.
  induction o as [|[k' v'] o IH]; simpl.
  - now rewrite String.eqb_refl.
  - destruct (String.eqb k k') eqn:E; simpl; rewrite E; auto.
Qed.

Lemma get_set_other k k' v o :
  k <> k' -> JsObject.get k (JsObject.set k' v o) = JsObject.get k o.
Proof.
  intros Hne. induction o as [|[k2 v2] o IH]; simpl.
  - apply String.eqb_neq in Hne. now rewrite Hne.
  - destruct (String.eqb k' k2) eqn:E; simpl.
    + apply String.eqb_eq in E. subst k2.
      apply String.eqb_neq in Hne. now rewrite Hne.
    + now rewrite IH.
Qed.

Lemma get_del_same k o : JsObject.get k (JsObject.del k o) = None.
Proof.
  induction o as [|[k' v'] o IH]; simpl; auto.
  destruct (String.eqb k k') eqn:E; simpl; auto. now rewrite E.
Qed.

Lemma get_del_other k k' o :
  k <> k' -> JsObject.get k (JsObject.del k' o) = JsObject.get k o.
Proof.
  intros Hne. induction o as [|[k2 v2] o IH]; simpl; auto.
  destruct (String.eqb k' k2) eqn:E; simpl.
  - apply String.eqb_eq in E. subst k2.
    apply String.eqb_neq in Hne. now rewrite Hne.
  - now rewrite IH.
Qed.

Lemma in_keys_get k o :
  In k (JsObject.keys o) <-> JsObject.get k o <> None.
Proof.
  induction o as [|[k' v'] o IH]; simpl.
  - split; [tauto | congruence].
  - destruct (String.eqb_spec k k') as [->|Hne].
    + split; [discriminate | auto].
    + rewrite IH. split; [intros [H|H]; congruence | auto].
Qed.

Lemma has_true_iff k o :
  JsObject.has k o = true <-> In k (JsObject.keys o).
Proof.
  rewrite in_keys_get. unfold JsObject.has.
  destruct (JsObject.get k o); split; congruence.
Qed.

Lemma in_keys_set k k' v o :
  In k (JsObject.keys (JsObject.set k' v o)) <->
  k = k' \/ In k (JsObject.keys o).
Proof.
  rewrite !in_keys_get.
  destruct (String.eqb_spec k k') as [->|Hne].
  - rewrite get_set_same. split; [auto | discriminate].
  - rewrite get_set_other by assumption. split; [auto | tauto].
Qed.

Lemma in_keys_del k k' o :
  In k (JsObject.keys (JsObject.del k' o)) <->
  k <> k' /\ In k (JsObject.keys o).
Proof.
  rewrite !in_keys_get.
  destruct (String.eqb_spec k k') as [->|Hne].
  - rewrite get_del_same. split; [congruence | tauto].
  - rewrite get_del_other by assumption. tauto.
Qed.

Lemma wf_empty : JsObject.wf (@JsObject.empty V).
Proof. constructor. Qed.

Lemma keys_set_present k v o :
  In k (JsObject.keys o) ->
  JsObject.keys (JsObject.set k v o) = JsObject.keys o.
Proof.
  induction o as [|[k' v'] o IH]; simpl; [tauto|].
  destruct (String.eqb_spec k k') as [->|Hne]; simpl; auto.
  intros [H|H]; [congruence|]. now rewrite (IH H).
Qed.

Lemma keys_set_absent k v o :
  ~ In k (JsObject.keys o) ->
  JsObject.keys (JsObject.set k v o) = JsObject.keys o ++ [k].
Proof.
  induction o as [|[k' v'] o IH]; simpl; auto.
  destruct (String.eqb_spec k k') as [->|Hne]; simpl.
  - tauto.
  - intros H. rewrite IH; tauto.
Qed.

Lemma wf_set k v o : JsObject.wf o -> JsObject.wf (JsObject.set k v o).
Proof.
  unfold JsObject.wf. intros Hwf.
  destruct (in_dec string_dec k (JsObject.keys o)) as [Hin|Hout].
  - now rewrite keys_set_present.
  - rewrite keys_set_absent by assumption.
    apply NoDup_app; auto.
    + repeat constructor. simpl. tauto.
    + intros x Hx [<-|[]]. contradiction.
Qed.

Lemma wf_del k o : JsObject.wf o -> JsObject.wf (JsObject.del k o).
Proof.
  unfold JsObject.wf.
  induction o as [|[k' v'] o IH]; simpl; auto.
  intros Hwf. inversion Hwf as [|? ? Hnot Hrest]; subst.
  destruct (String.eqb k k'); auto.
  simpl. constructor; auto.
  intros Hin. apply in_keys_del in Hin. tauto.
Qed.

Lemma del_absent k o :
  ~ In k (JsObject.keys o) -> JsObject.del k o = o.
Proof.
  induction o as [|[k' v'] o IH]; simpl; auto.
  destruct (String.eqb_spec k k') as [->|Hne]; [tauto|].
  intros H. rewrite IH; tauto.
Qed.

End JsObjectFacts.

(** ** The decision: grouping *)

Section DecisionFacts.
Import Decision.

Lemma groupScore_scoresOr a o s :
  scoresOr a (groupScore o s) =
  scoresOr a o ++ (if String.eqb (member s) a then [s] else []).
Proof.
  unfold groupScore, scoresOr at 1.
  destruct (String.eqb_spec (member s) a) as [<-|Hne].
  - now rewrite get_set_same.
  - rewrite get_set_other by congruence.
    now rewrite app_nil_r.
Qed.

Lemma fold_groupScore_scoresOr a ts : forall o,
  scoresOr a (fold_left groupScore ts o) =
  scoresOr a o ++ filter (fun s => String.eqb (member s) a) ts.
Proof.
  induction ts as [|s ts IH]; intros o; simpl.
  - now rewrite app_nil_r.
  - rewrite IH, groupScore_scoresOr, <- app_assoc.
    now destruct (String.eqb (member s) a).
Qed.

Lemma fold_groupScore_keys a ts : forall o,
  In a (JsObject.keys (fold_left groupScore ts o)) <->
  In a (JsObject.keys o) \/ exists s, In s ts /\ member s = a.
Proof.
  induction ts as [|s ts IH]; intros o; simpl.
  - split; [auto | intros [H|[s [[] _]]]; exact H].
  - rewrite IH. unfold groupScore at 1. rewrite in_keys_set.
    split.
    + intros [[->|H]|[s' [H1 H2]]]; eauto.
    + intros [H|[s' [[->|H1] H2]]]; eauto.
Qed.

Lemma fold_groupScore_wf ts : forall o,
  JsObject.wf o -> JsObject.wf (fold_left groupScore ts o).
Proof.
  induction ts as [|s ts IH]; intros o Hwf; simpl; auto.
  apply IH, wf_set, Hwf.
Qed.

(** The two nested loops are one pass over all the tuples. *)
Lemma fold_groupResponse_tuples rs : forall o,
  fold_left groupResponse rs o = fold_left groupScore (allTuples rs) o.
Proof.
  induction rs as [|r rs IH]; intros o; simpl; auto.
  rewrite fold_left_app, IH. unfold groupResponse, responseTuples.
  now destruct (scores r).
Qed.

Lemma groupAll_tuples rs :
  groupAll rs = fold_left groupScore (allTuples rs) JsObject.empty.
Proof. apply fold_groupResponse_tuples. Qed.

Lemma groupAll_wf rs : JsObject.wf (groupAll rs).
Proof. rewrite groupAll_tuples. apply fold_groupScore_wf, wf_empty. Qed.

Lemma filter_nil_iff {A} (f : A -> bool) l :
  filter f l = [] <-> forall x, In x l -> f x = false.
Proof.
  induction l as [|x l IH]; simpl.
  - split; [intros _ x [] | auto].
  - destruct (f x) eqn:E.
    + split; [discriminate|]. intros H. specialize (H x (or_introl eq_refl)).
      congruence.
    + rewrite IH. split.
      * intros H y [<-|Hy]; auto.
      * intros H y Hy. apply H. now right.
Qed.

(** The group stored under [a] is exactly the tuples naming [a], and
    there is a group only when there is such a tuple. *)
Lemma groupAll_get a rs :
  JsObject.get a (groupAll rs) =
  match tuplesFor a rs with
  | [] => None
  | g => Some g
  end.
Proof.
  pose proof (fold_groupScore_scoresOr a (allTuples rs) JsObject.empty) as Hs.
  pose proof (fold_groupScore_keys a (allTuples rs) JsObject.empty) as Hk.
  rewrite <- groupAll_tuples in Hs, Hk. simpl in Hs.
  fold (tuplesFor a rs) in Hs.
  rewrite in_keys_get in Hk. unfold scoresOr in Hs.
  destruct (tuplesFor a rs) as [|t g] eqn:Ht.
  - destruct (JsObject.get a (groupAll rs)) as [g'|]; auto.
    exfalso. destruct Hk as [Hk _].
    destruct Hk as [[]|[s [Hin Hm]]]; [discriminate|].
    unfold tuplesFor in Ht. rewrite filter_nil_iff in Ht.
    specialize (Ht s Hin). apply String.eqb_neq in Ht. contradiction.
  - destruct (JsObject.get a (groupAll rs)) as [g'|]; [now subst|].
    exfalso. destruct Hk as [_ Hk]. apply Hk; [|reflexivity].
    right. exists t.
    assert (In t (tuplesFor a rs)) as Hin by (rewrite Ht; now left).
    unfold tuplesFor in Hin. apply filter_In in Hin.
    destruct Hin as [Hin Hm]. apply String.eqb_eq in Hm. auto.
Qed.

Lemma in_keys_groupAll a rs :
  In a (JsObject.keys (groupAll rs)) <-> tuplesFor a rs <> [].
Proof.
  rewrite in_keys_get, groupAll_get.
  destruct (tuplesFor a rs); split; congruence.
Qed.

(** The second loop keeps the keys that pass the test, in order. *)
Lemma fold_pickMember rVal config o ks : forall acc,
  fold_left (pickMember rVal config o) ks acc =
  acc ++ filter (fun k => match JsObject.get k o with
                          | Some g =>
                              (rVal <=? Z.of_nat (List.length g))
                              && scoresExceedSuppressLimit config g
                          | None => false
                          end) ks.
Proof.
  induction ks as [|k ks IH]; intros acc; simpl.
  - now rewrite app_nil_r.
  - rewrite IH. unfold pickMember.
    destruct (JsObject.get k o) as [g|]; auto.
    destruct ((rVal <=? Z.of_nat (List.length g))
              && scoresExceedSuppressLimit config g); auto.
    now rewrite <- app_assoc.
Qed.

Lemma scoresExceedSuppressLimit_true config g :
  scoresExceedSuppressLimit config g = true <->
  Forall (fun s => dampScoringSuppressLimit config <= dampScore s) g.
Proof.
  unfold scoresExceedSuppressLimit. rewrite forallb_forall, Forall_forall.
  split; intros H s Hs; specialize (H s Hs); lia.
Qed.

(** Membership in the result, for any [rVal]. *)
Lemma in_getMembersToDamp rs rVal config a :
  In a (getMembersToDamp rs rVal config) <->
  tuplesFor a rs <> [] /\
  rVal <= Z.of_nat (List.length (tuplesFor a rs)) /\
  Forall (fun s => dampScoringSuppressLimit config <= dampScore s)
         (tuplesFor a rs).
Proof.
  unfold getMembersToDamp. rewrite fold_pickMember. simpl.
  rewrite filter_In, in_keys_groupAll, groupAll_get.
  destruct (tuplesFor a rs) as [|t g] eqn:Ht.
  - split; [intros [H _]; congruence | intros [H _]; congruence].
  - rewrite andb_true_iff, Z.leb_le, scoresExceedSuppressLimit_true.
    tauto.
Qed.

Lemma getMembersToDamp_NoDup rs rVal config :
  NoDup (getMembersToDamp rs rVal config).
Proof.
  unfold getMembersToDamp. rewrite fold_pickMember. simpl.
  apply NoDup_filter, groupAll_wf.
Qed.

Lemma getMembersToDamp_skips_non_array rs1 r rs2 rVal config :
  scores r = NotArray ->
  getMembersToDamp (rs1 ++ r :: rs2) rVal config =
  getMembersToDamp (rs1 ++ rs2) rVal config.
Proof.
  intros Hr. unfold getMembersToDamp, groupAll.
  rewrite !fold_left_app. simpl. unfold groupResponse at 2 5.
  now rewrite Hr.
Qed.

End DecisionFacts.

(** ** The decision: the claims *)

Section DecisionClaims.
Import Decision.

Lemma Permutation_filter_compat {A} (f : A -> bool) l l' :
  Permutation l l' -> Permutation (filter f l) (filter f l').
Proof.
  induction 1 as [|x l l' _ IH|x y l|l l' l'' _ IH1 _ IH2]; simpl.
  - constructor.
  - destruct (f x); auto.
  - destruct (f x), (f y); auto using perm_swap.
  - now transitivity (filter f l').
Qed.

Lemma tuplesFor_Permutation a rs rs' :
  Permutation rs rs' -> Permutation (tuplesFor a rs) (tuplesFor a rs').
Proof.
  intros H. unfold tuplesFor, allTuples.
  apply Permutation_filter_compat.
  now apply Permutation_flat_map.
Qed.

Lemma decision_mem_Permutation rs rs' rVal config a :
  Permutation rs rs' ->
  In a (getMembersToDamp rs rVal config) ->
  In a (getMembersToDamp rs' rVal config).
Proof.
  intros HP. rewrite !in_getMembersToDamp.
  pose proof (tuplesFor_Permutation a rs rs' HP) as Ht.
  intros (Hne & Hlen & Hall). repeat split.
  - intros E. rewrite E in Ht. symmetry in Ht.
    apply Permutation_nil in Ht. auto.
  - now rewrite <- (Permutation_length Ht).
  - rewrite Forall_forall in *. intros s Hs. apply Hall.
    eapply Permutation_in; [symmetry; exact Ht | exact Hs].
Qed.

(** C1, as the code has it.  [getMembersToDamp] returns the address [a]
    exactly when some score tuple names [a] and the tuples that name
    [a], taken over all the responses that have a scores array, number
    at least [rVal] and each has a [dampScore] at or above
    [dampScoringSuppressLimit]; this for every [rVal], also zero or
    negative.  For [rVal >= 1] the first condition follows from the
    second, and the statement is the claim's.  A response whose
    [scores] is not an array can be dropped from the input without
    changing the result. *)
Theorem getMembersToDamp_iff rs rVal config a :
  (In a (getMembersToDamp rs rVal config) <->
   tuplesFor a rs <> [] /\
   rVal <= Z.of_nat (List.length (tuplesFor a rs)) /\
   Forall (fun s => dampScoringSuppressLimit config <= dampScore s)
          (tuplesFor a rs)) /\
  (1 <= rVal ->
   (In a (getMembersToDamp rs rVal config) <->
    rVal <= Z.of_nat (List.length (tuplesFor a rs)) /\
    Forall (fun s => dampScoringSuppressLimit config <= dampScore s)
           (tuplesFor a rs))) /\
  (forall rs1 r rs2,
      rs = rs1 ++ r :: rs2 -> scores r = NotArray ->
      getMembersToDamp rs rVal config =
      getMembersToDamp (rs1 ++ rs2) rVal config).
Proof.
  split; [apply in_getMembersToDamp|]. split.
  - intros HrVal. rewrite in_getMembersToDamp. split; [tauto|].
    intros [Hlen Hall]. repeat split; auto.
    intros E. rewrite E in Hlen. simpl in Hlen. lia.
  - intros rs1 r rs2 -> Hr. now apply getMembersToDamp_skips_non_array.
Qed.

(** C7.  Responses that arrive in another order give the same members
    to damp: the two results are permutations of each other, so an
    address is in one exactly when it is in the other. *)
Theorem getMembersToDamp_Permutation rs rs' rVal config :
  Permutation rs rs' ->
  Permutation (getMembersToDamp rs rVal config)
              (getMembersToDamp rs' rVal config) /\
  (forall a, In a (getMembersToDamp rs rVal config) <->
             In a (getMembersToDamp rs' rVal config)).
Proof.
  intros HP.
  assert (forall a, In a (getMembersToDamp rs rVal config) <->
                    In a (getMembersToDamp rs' rVal config)) as Hiff.
  { intros a. split; apply decision_mem_Permutation;
      [exact HP | symmetry; exact HP]. }
  split; [|exact Hiff].
  apply NoDup_Permutation; auto using getMembersToDamp_NoDup.
Qed.

End DecisionClaims.

(** ** The fan-out: one reply at a time *)

Section FanoutSteps.
Import Fanout.
Variables (flapperAddrs : list string) (rVal : Z).

Local Abbreviation onReply := (onDampReq flapperAddrs rVal).
Local Abbreviation size l := (Z.of_nat (List.length l)).

(** Once the continuation is gone, a reply changes nothing. *)
Lemma onDampReq_consumed addr reply st :
  callbackLive st = false -> onReply addr reply st = st.
Proof. intros H. unfold onDampReq. now rewrite H. Qed.

Lemma deliver_consumed replies : forall st,
  callbackLive st = false -> deliver flapperAddrs rVal replies st = st.
Proof.
  induction replies as [|r replies IH]; intros st H; simpl; auto.
  rewrite onDampReq_consumed by assumption. now apply IH.
Qed.

Lemma deliver_app l1 l2 st :
  deliver flapperAddrs rVal (l1 ++ l2) st =
  deliver flapperAddrs rVal l2 (deliver flapperAddrs rVal l1 st).
Proof. apply fold_left_app. Qed.

Lemma deliver_snoc l addr reply st :
  deliver flapperAddrs rVal (l ++ [(addr, reply)]) st =
  onReply addr reply (deliver flapperAddrs rVal l st).
Proof. now rewrite deliver_app. Qed.

(** A reply that finds the continuation in place is counted, and then
    exactly one of three things happens. *)
Lemma onDampReq_live addr reply st :
  callbackLive st = true ->
  let st' := onReply addr reply st in
  numPendingReqs st' = numPendingReqs st - 1 /\
  errors st' = errors st ++ failures [(addr, reply)] /\
  size (results st) <= size (results st') <= size (results st) + 1 /\
  sent st' = sent st /\
  ((rVal <= size (results st') /\
    callbackLive st' = false /\
    invocations st' = invocations st ++ [Results (results st')])
   \/
   (size (results st') < rVal /\ quorumOutOfReach rVal st' /\
    callbackLive st' = false /\
    invocations st' =
      invocations st ++
      [Unattainable (UnattainableRValError flapperAddrs rVal (errors st'))])
   \/
   (size (results st') < rVal /\ ~ quorumOutOfReach rVal st' /\
    callbackLive st' = true /\
    invocations st' = invocations st)).
Proof.
  intros Hlive. unfold onDampReq, quorumOutOfReach. rewrite Hlive. simpl.
  destruct reply as [err|res]; simpl.
  - destruct (Z.leb_spec rVal (size (results st))); simpl;
      [|destruct (Z.ltb_spec (numPendingReqs st - 1)
                             (rVal - size (results st)))]; simpl;
      repeat split; try lia; auto 6.
    + right; right. repeat split; auto; lia.
  - rewrite !length_app. simpl.
    destruct (Z.leb_spec rVal (Z.of_nat (List.length (results st) + 1)));
      simpl;
      [|destruct (Z.ltb_spec (numPendingReqs st - 1)
           (rVal - Z.of_nat (List.length (results st) + 1)))]; simpl;
      rewrite ?length_app, ?app_nil_r; simpl;
      repeat split; try lia; auto 6.
    + right; right. repeat split; auto; lia.
Qed.

Lemma failures_app l1 l2 : failures (l1 ++ l2) = failures l1 ++ failures l2.
Proof. apply flat_map_app. Qed.

End FanoutSteps.

(** ** The fan-out: whole runs *)

Section FanoutRuns.
Import Fanout.
Variables (flapperAddrs : list string)
          (dampReqMembers : list Membership.Member) (rVal : Z).

Local Abbreviation start :=
  (_fanoutDampReqs flapperAddrs dampReqMembers rVal).
Local Abbreviation after l := (deliver flapperAddrs rVal l start).
Local Abbreviation size l := (Z.of_nat (List.length l)).

(** After any replies the fan-out is in one of two conditions: still
    waiting, with nothing reported, or decided by one particular
    reply and unchanged since. *)
Lemma fanout_trace (l : list (string * Reply)) :
  (callbackLive (after l) = true /\
   invocations (after l) = [] /\
   numPendingReqs (after l) = size dampReqMembers - size l /\
   errors (after l) = failures l /\
   (l <> [] -> size (results (after l)) < rVal /\
               ~ quorumOutOfReach rVal (after l)))
  \/
  (callbackLive (after l) = false /\
   exists l1 x l2,
     l = l1 ++ x :: l2 /\
     callbackLive (after l1) = true /\
     after l = after (l1 ++ [x]) /\
     errors (after l) = failures (l1 ++ [x]) /\
     numPendingReqs (after l) = size dampReqMembers - size l1 - 1 /\
     size (results (after l)) <= size (results (after l1)) + 1 /\
     ((rVal <= size (results (after l)) /\
       invocations (after l) = [Results (results (after l))])
      \/
      (size (results (after l)) < rVal /\
       quorumOutOfReach rVal (after l) /\
       invocations (after l) =
         [Unattainable
            (UnattainableRValError flapperAddrs rVal
                                   (errors (after l)))]))).
Proof.
  induction l as [|[addr reply] l IH] using rev_ind.
  - left. simpl. repeat split; auto; try lia; congruence.
  - rewrite deliver_snoc.
    destruct IH as [(Hlive & Hinv & Hpend & Herr & Hrest)
                   |(Hdead & l1 & x & l2 & -> & Hpre & Heq & Hfacts)].
    + pose proof (onDampReq_live flapperAddrs rVal addr reply _ Hlive)
        as (Hp & He & Hr & _ & Hcases).
      cbv zeta in Hp, He, Hr, Hcases.
      destruct Hcases as [(Hok & Hd & Hi)|[(Hlt & Hout & Hd & Hi)
                                          |(Hlt & Hin & Hl & Hi)]].
      * right. split; [exact Hd|]. exists l, (addr, reply), [].
        rewrite deliver_snoc.
        repeat split; auto.
        -- now rewrite He, Herr, failures_app.
        -- lia.
        -- lia.
        -- left. rewrite Hi, Hinv. auto.
      * right. split; [exact Hd|]. exists l, (addr, reply), [].
        rewrite deliver_snoc.
        repeat split; auto.
        -- now rewrite He, Herr, failures_app.
        -- lia.
        -- lia.
        -- right. rewrite Hi, Hinv. auto.
      * left. repeat split; auto.
        -- now rewrite Hi.
        -- rewrite Hp, Hpend, length_app. simpl. lia.
        -- now rewrite He, Herr, failures_app.
    + right. rewrite onDampReq_consumed by assumption.
      split; [exact Hdead|].
      exists l1, x, (l2 ++ [(addr, reply)]).
      rewrite <- app_assoc. simpl. split; [reflexivity|].
      split; [exact Hpre|]. split; [exact Heq|]. exact Hfacts.
Qed.


Lemma invocations_at_most_one l :
  (List.length (invocations (after l)) <= 1)%nat.
Proof.
  destruct (fanout_trace l) as [(_ & Hnil & _)
    |(_ & l1 & x & l2 & _ & _ & _ & _ & _ & _ & [(_ & Hi)|(_ & _ & Hi)])];
    [rewrite Hnil|rewrite Hi|rewrite Hi]; simpl; lia.
Qed.

End FanoutRuns.

(** ** The fan-out: the claims *)

Section FanoutClaims.
Import Fanout.
Variables (flapperAddrs : list string)
          (dampReqMembers : list Membership.Member) (rVal : Z).

Local Abbreviation start :=
  (_fanoutDampReqs flapperAddrs dampReqMembers rVal).
Local Abbreviation after l := (deliver flapperAddrs rVal l start).
Local Abbreviation size l := (Z.of_nat (List.length l)).

Lemma firstn_exact {A} (l1 l2 : list A) :
  firstn (List.length l1) (l1 ++ l2) = l1.
Proof. induction l1; simpl; congruence. Qed.


(** When every member's request has been answered there has been one
    call, the continuation is gone, and later replies add none. *)
Lemma fanout_one_call (replies : list (string * Reply)) :
  1 <= rVal <= size dampReqMembers ->
  Permutation (map fst replies)
              (map Membership.address dampReqMembers) ->
  exists inv,
    invocations (after replies) = [inv] /\
    callbackLive (after replies) = false /\
    match inv with
    | Results rs => rs = results (after replies) /\ size rs = rVal
    | Unattainable e =>
        RValError.flappers e = flapperAddrs /\ RValError.rVal e = rVal
    end /\
    (forall k,
        (List.length (invocations (after (firstn k replies))) <= 1)%nat) /\
    (forall late, invocations (after (replies ++ late)) = [inv]).
Proof.
  intros HrVal Hperm.
  assert (List.length replies = List.length dampReqMembers) as Hlen.
  { apply Permutation_length in Hperm. now rewrite !length_map in Hperm. }
  assert (forall inv, invocations (after replies) = [inv] ->
                      callbackLive (after replies) = false ->
          forall late, invocations (after (replies ++ late)) = [inv])
    as Hlate.
  { intros inv Hi Hd late.
    rewrite deliver_app. now rewrite deliver_consumed. }
  pose proof (invocations_at_most_one flapperAddrs dampReqMembers rVal)
    as Hmost.
  destruct (fanout_trace flapperAddrs dampReqMembers rVal replies)
    as [(Hlive & _ & Hpend & _ & Hrest)
       |(Hdead & l1 & x & l2 & Hl & Hpre & _ & _ & _ & Hgrow & Hcases)].
  - exfalso. destruct Hrest as [Hlt Hin].
    + intros ->. simpl in Hlen. lia.
    + apply Hin. unfold quorumOutOfReach. lia.
  - destruct Hcases as [(Hok & Hi)|(Hlt & Hout & Hi)].
    + exists (Results (results (after replies))).
      repeat split; auto.
      destruct (fanout_trace flapperAddrs dampReqMembers rVal l1)
        as [(_ & _ & _ & _ & Hrest)|(Hd & _)]; [|congruence].
      destruct l1 as [|r l1].
      * simpl in Hgrow. lia.
      * destruct Hrest as [Hlt _]; [discriminate|]. lia.
    + eexists. split; [exact Hi|]. repeat split; auto.
Qed.

(** While the continuation is in place, the changes of a successful
    reply are handed to [membership.update]. *)
Lemma onDampReq_applies_changes addr res cs st :
  callbackLive st = true ->
  changes res = IsArray cs ->
  membershipUpdates (onDampReq flapperAddrs rVal addr (Answered res) st)
  = membershipUpdates st ++ [cs].
Proof.
  intros Hlive Hcs. unfold onDampReq. rewrite Hlive, Hcs. simpl.
  destruct (rVal <=? _); [reflexivity|].
  destruct (_ <? _); reflexivity.
Qed.

(** C5, as the code has it.  Once the fan-out has called its
    continuation (the early commit on [rVal] successes, or the early
    abort), a late reply is discarded whole: whether it failed or
    succeeded, with or without a changes array, the fan-out's
    variables, the calls of the continuation and the changes handed to
    [membership.update] all stay as they are. *)
Theorem late_reply_is_discarded_whole
    (early : list (string * Reply)) addr (reply : Reply) :
  invocations (after early) <> [] ->
  after (early ++ [(addr, reply)]) = after early /\
  membershipUpdates (after (early ++ [(addr, reply)])) =
  membershipUpdates (after early) /\
  invocations (after (early ++ [(addr, reply)])) =
  invocations (after early).
Proof.
  intros Hcalled.
  assert (callbackLive (after early) = false) as Hdead.
  { destruct (fanout_trace flapperAddrs dampReqMembers rVal early)
      as [(_ & Hnil & _)|(Hdead & _)]; [contradiction | exact Hdead]. }
  assert (after (early ++ [(addr, reply)]) = after early) as E.
  { rewrite deliver_snoc. now apply onDampReq_consumed. }
  split; [exact E | now rewrite E].
Qed.


End FanoutClaims.

(** ** The damper: what each operation does to the two sets *)

Section DamperFacts.
Import Damper.
Variable config : Config.

Lemma _startDampTimer_sets d :
  flappers (_startDampTimer config d) = flappers d /\
  dampedMembers (_startDampTimer config d) = dampedMembers d.
Proof.
  unfold _startDampTimer, schedule.
  destruct (isDampTimerEnabled d); simpl; auto.
Qed.

Lemma _stopDampTimer_sets d :
  flappers (_stopDampTimer d) = flappers d /\
  dampedMembers (_stopDampTimer d) = dampedMembers d /\
  dampedMemberExpirationTimer (_stopDampTimer d) =
    dampedMemberExpirationTimer d.
Proof.
  unfold _stopDampTimer. destruct (isDampTimerEnabled d); simpl; auto.
Qed.

Lemma addFlapper_sets f d :
  dampedMembers (addFlapper config f d) = dampedMembers d /\
  flappers (addFlapper config f d) =
    if JsObject.has (address f) (dampedMembers d)
       || JsObject.has (address f) (flappers d)
    then flappers d
    else JsObject.set (address f) f (flappers d).
Proof.
  unfold addFlapper.
  destruct (JsObject.has (address f) (dampedMembers d)); simpl; auto.
  destruct (JsObject.has (address f) (flappers d)); simpl; auto.
  match goal with |- context [if ?c then _ else _] => destruct c end;
    simpl; auto.
  match goal with |- context [_startDampTimer config ?d1] =>
    destruct (_startDampTimer_sets d1) as [-> ->] end.
  simpl; auto.
Qed.

Lemma removeFlapper_sets x d :
  dampedMembers (removeFlapper x d) = dampedMembers d /\
  flappers (removeFlapper x d) = JsObject.del (addressOf x) (flappers d) /\
  dampedMemberExpirationTimer (removeFlapper x d) =
    dampedMemberExpirationTimer d.
Proof.
  unfold removeFlapper.
  destruct (JsObject.has (addressOf x) (flappers d)) eqn:Hhas; simpl.
  - match goal with |- context [if ?c then _ else _] => destruct c end;
      simpl; auto.
    destruct (_stopDampTimer_sets
                (mk (JsObject.del (addressOf x) (flappers d)) (dampTimer d)
                    (isDampTimerEnabled d) (dampedMembers d)
                    (dampedMemberExpirationTimer d) (timers d)
                    (madeDamped d))) as (H1 & H2 & H3).
    auto.
  - repeat split; auto. symmetry. apply del_absent.
    rewrite <- has_true_iff. congruence.
Qed.

Lemma _dampMember_sets a now d :
  flappers (_dampMember config a now d) = JsObject.del a (flappers d) /\
  dampedMembers (_dampMember config a now d) =
    JsObject.set a (mkDamping now) (dampedMembers d).
Proof.
  unfold _dampMember.
  set (d1 := mk (flappers d) (dampTimer d) (isDampTimerEnabled d)
                (dampedMembers d) (dampedMemberExpirationTimer d)
                (timers d) (madeDamped d ++ [a])).
  destruct (removeFlapper_sets (OfAddress a) d1) as (H1 & H2 & H3).
  simpl in H1, H2, H3. simpl. rewrite H3. simpl.
  destruct (dampedMemberExpirationTimer d); simpl; rewrite H1, H2; auto.
Qed.

(** The scan: a key that is not listed is left alone; a listed key is
    deleted exactly when the clock, read in its iteration, shows that
    the suppress duration has passed. *)
Lemma expireScan_unlisted D now ks : forall i dm und k,
  ~ In k ks ->
  JsObject.get k (fst (expireScan D now i ks dm und)) = JsObject.get k dm.
Proof.
  induction ks as [|k0 ks IH]; intros i dm und k Hk; simpl; auto.
  assert (k <> k0 /\ ~ In k ks) as [Hne Hk']
    by (simpl in Hk; split; intros H; apply Hk; auto).
  destruct (JsObject.get k0 dm) as [e|]; [|now apply IH].
  destruct (D <=? now i - timestamp e); rewrite IH; auto.
  now apply get_del_other.
Qed.

Lemma expireScan_listed D now ks : forall i dm und j k e,
  NoDup ks ->
  nth_error ks j = Some k ->
  JsObject.get k dm = Some e ->
  JsObject.get k (fst (expireScan D now i ks dm und)) =
    if D <=? now (i + j)%nat - timestamp e then None else Some e.
Proof.
  induction ks as [|k0 ks IH]; intros i dm und j k e Hnd Hj Hget.
  - destruct j; discriminate.
  - inversion Hnd as [|? ? Hnot Hnd']; subst.
    destruct j as [|j]; simpl in Hj.
    + injection Hj as ->. simpl. rewrite Hget, Nat.add_0_r.
      destruct (D <=? now i - timestamp e);
        rewrite expireScan_unlisted by assumption; auto.
      apply get_del_same.
    + assert (k <> k0) as Hne.
      { intros ->. apply Hnot. eapply nth_error_In; eauto. }
      simpl. replace (i + S j)%nat with (S i + j)%nat by lia.
      destruct (JsObject.get k0 dm) as [e0|]; [|now apply IH].
      destruct (D <=? now i - timestamp e0); apply IH; auto.
      now rewrite get_del_other.
Qed.

Lemma expireScan_keys D now ks : forall i dm und k,
  In k (JsObject.keys (fst (expireScan D now i ks dm und))) ->
  In k (JsObject.keys dm).
Proof.
  induction ks as [|k0 ks IH]; intros i dm und k; simpl; auto.
  destruct (JsObject.get k0 dm) as [e|]; [|apply IH].
  destruct (D <=? now i - timestamp e); intros H; apply IH in H; auto.
  apply in_keys_del in H. tauto.
Qed.

Lemma expireScan_wf D now ks : forall i dm und,
  JsObject.wf dm -> JsObject.wf (fst (expireScan D now i ks dm und)).
Proof.
  induction ks as [|k0 ks IH]; intros i dm und Hwf; simpl; auto.
  destruct (JsObject.get k0 dm) as [e|]; [|now apply IH].
  destruct (D <=? now i - timestamp e); apply IH; auto.
  now apply wf_del.
Qed.

(** The comparison of an array with a number never holds, so the
    branch that would clear the timer is never taken. *)
Lemma _expireDampedMembers_fields now d :
  let d' := fst (_expireDampedMembers config now d) in
  flappers d' = flappers d /\
  dampedMembers d' =
    fst (expireScan (dampScoringSuppressDuration config) now 0
                    (JsObject.keys (dampedMembers d)) (dampedMembers d) [])
  /\
  dampedMemberExpirationTimer d' = dampedMemberExpirationTimer d /\
  timers d' = timers d /\
  dampTimer d' = dampTimer d /\
  isDampTimerEnabled d' = isDampTimerEnabled d.
Proof.
  unfold _expireDampedMembers.
  destruct (expireScan _ _ _ _ _ _) as [remaining und]. simpl. auto 10.
Qed.

(** What a tick does to each damped entry. *)
Lemma _expireDampedMembers_entry now d j k e :
  JsObject.wf (dampedMembers d) ->
  nth_error (JsObject.keys (dampedMembers d)) j = Some k ->
  JsObject.get k (dampedMembers d) = Some e ->
  JsObject.get k (dampedMembers (fst (_expireDampedMembers config now d))) =
    if dampScoringSuppressDuration config <=? now j - timestamp e
    then None else Some e.
Proof.
  intros Hwf Hj Hget.
  destruct (_expireDampedMembers_fields now d) as (_ & -> & _).
  now rewrite (expireScan_listed _ _ _ 0%nat _ _ j k e Hwf Hj Hget).
Qed.

(** An entry committed at [timestamp e] is gone after the tick exactly
    when the suppress duration had passed at the time its key was
    examined, and is still there, unchanged, otherwise. *)
Lemma _expireDampedMembers_removes_iff now d j k e :
  JsObject.wf (dampedMembers d) ->
  nth_error (JsObject.keys (dampedMembers d)) j = Some k ->
  JsObject.get k (dampedMembers d) = Some e ->
  (JsObject.get k (dampedMembers (fst (_expireDampedMembers config now d)))
   = None <->
   dampScoringSuppressDuration config <= now j - timestamp e) /\
  (JsObject.get k (dampedMembers (fst (_expireDampedMembers config now d)))
   = Some e <->
   now j - timestamp e < dampScoringSuppressDuration config).
Proof.
  intros Hwf Hj Hget.
  rewrite (_expireDampedMembers_entry now d j k e Hwf Hj Hget).
  destruct (Z.leb_spec (dampScoringSuppressDuration config)
                       (now j - timestamp e));
    split; split; intros; try discriminate; try lia; auto.
Qed.

(** *** Both objects stay well formed, and the sets stay apart *)

Lemma step_wf d op :
  JsObject.wf (flappers d) /\ JsObject.wf (dampedMembers d) ->
  JsObject.wf (flappers (step config d op)) /\
  JsObject.wf (dampedMembers (step config d op)).
Proof.
  intros [Hf Hd]. destruct op as [f|x|a now|now]; simpl.
  - destruct (addFlapper_sets f d) as [-> ->].
    split; auto. destruct (_ || _); auto using wf_set.
  - destruct (removeFlapper_sets x d) as (-> & -> & _).
    split; auto using wf_del.
  - destruct (_dampMember_sets a now d) as [-> ->].
    split; auto using wf_del, wf_set.
  - destruct (_expireDampedMembers_fields now d) as (-> & -> & _).
    split; auto using expireScan_wf.
Qed.

Lemma step_disjoint d op : disjoint d -> disjoint (step config d op).
Proof.
  unfold disjoint. intros Hdis b. destruct op as [f|x|a now|now]; simpl.
  - destruct (addFlapper_sets f d) as [-> ->].
    destruct (JsObject.has (address f) (dampedMembers d)) eqn:Hd; simpl;
      [apply Hdis|].
    destruct (JsObject.has (address f) (flappers d)) eqn:Hf; simpl;
      [apply Hdis|].
    rewrite in_keys_set. intros [->|Hb] Hb'; [|eauto].
    apply has_true_iff in Hb'. congruence.
  - destruct (removeFlapper_sets x d) as (-> & -> & _).
    rewrite in_keys_del. intros [_ Hb]. eauto.
  - destruct (_dampMember_sets a now d) as [-> ->].
    rewrite in_keys_del, in_keys_set. intros [Hne Hb] [->|Hb']; eauto.
  - destruct (_expireDampedMembers_fields now d) as (-> & -> & _).
    intros Hb Hb'. apply expireScan_keys in Hb'. eauto.
Qed.

Lemma run_snoc ops op d :
  run config (ops ++ [op]) d = step config (run config ops d) op.
Proof. unfold run. now rewrite fold_left_app. Qed.

Lemma run_wf ops :
  JsObject.wf (flappers (run config ops new)) /\
  JsObject.wf (dampedMembers (run config ops new)).
Proof.
  induction ops as [|op ops IH] using rev_ind.
  - split; constructor.
  - rewrite run_snoc. now apply step_wf.
Qed.

End DamperFacts.

(** ** The damper: the claims *)

Section DamperClaims.
Import Damper.

(** C3.  Starting from a new damper, after every operation of any
    sequence of [addFlapper], [removeFlapper], [_dampMember] and
    [_expireDampedMembers] (that is, after every prefix of the
    sequence) no address is both in the flapper set and in the damped
    set. *)
Theorem flappers_and_damped_stay_disjoint config (ops : list Op) k :
  disjoint (run config (firstn k ops) new).
Proof.
  induction (firstn k ops) as [|op l IH] using rev_ind.
  - intros a [].
  - rewrite run_snoc. now apply step_disjoint.
Qed.

(** C4, at the input where the code departs from it.  A member is
    damped at time 0 with a suppress duration of 1000 ms; the tick at
    1100 ms removes it, which empties the damped set, and yet the
    expiration timer is neither cleared nor forgotten: its handle is
    still stored and still scheduled. *)
Theorem expiration_timer_outlives_damped_set :
  dampedMemberExpirationTimer
    (_dampMember Scenario.config Scenario.y 0 new) = Some 0%nat /\
  JsObject.keys
    (dampedMembers (_dampMember Scenario.config Scenario.y 0 new))
    = [Scenario.y] /\
  _expireDampedMembers Scenario.config (fun _ => 1100)
    (_dampMember Scenario.config Scenario.y 0 new)
  = (mk JsObject.empty None false JsObject.empty (Some 0%nat)
        (Timers.mk 1 [(0%nat, (Timers.ExpirationTimerTask, 100))])
        [Scenario.y],
     [mkUndamped Scenario.y 1100]) /\
  Timers.pending 0
    (timers (fst (_expireDampedMembers Scenario.config (fun _ => 1100)
                    (_dampMember Scenario.config Scenario.y 0 new))))
  = true.
Proof. repeat split. Qed.

(** C9.  A second [addFlapper] of the same flapper changes nothing,
    and an [addFlapper] of an address that is already damped or
    already a flapper changes nothing at all: not the two sets, not
    the damp timer. *)
Theorem addFlapper_idempotent config f d :
  addFlapper config f (addFlapper config f d) = addFlapper config f d /\
  (In (address f) (JsObject.keys (dampedMembers d)) \/
   In (address f) (JsObject.keys (flappers d)) ->
   addFlapper config f d = d).
Proof.
  assert (forall d',
             JsObject.has (address f) (dampedMembers d') = true \/
             JsObject.has (address f) (flappers d') = true ->
             addFlapper config f d' = d') as Hnoop.
  { intros d' H. unfold addFlapper.
    destruct (JsObject.has (address f) (dampedMembers d')); auto.
    destruct (JsObject.has (address f) (flappers d')); auto.
    destruct H; discriminate. }
  split.
  - apply Hnoop.
    destruct (addFlapper_sets config f d) as [-> ->].
    destruct (JsObject.has (address f) (dampedMembers d)) eqn:Hd; auto.
    destruct (JsObject.has (address f) (flappers d)) eqn:Hf; auto.
    right. simpl. unfold JsObject.has. now rewrite get_set_same.
  - intros H. apply Hnoop. now rewrite !has_true_iff.
Qed.

End DamperClaims.

(** ** The damp-req handler *)

Section HandlerClaims.
Import Handler.
Variable findMemberByAddress : string -> option Membership.Member.

Lemma fold_reduce flappers : forall result,
  fold_left (reduce findMemberByAddress) flappers result =
  result ++ flat_map (fun flapper =>
                        match findMemberByAddress flapper with
                        | Some member => [scoreOf member]
                        | None => []
                        end) flappers.
Proof.
  induction flappers as [|f flappers IH]; intros result; simpl.
  - now rewrite app_nil_r.
  - rewrite IH. unfold reduce.
    destruct (findMemberByAddress f); auto.
    now rewrite <- app_assoc.
Qed.

(** C8.  For a body whose [flappers] is an array the handler answers
    with the scores of the flappers that the membership knows, one
    tuple [{member, dampScore}] for each such flapper, in the order of
    the request, and nothing for a flapper that is not found; for
    every other body (no [flappers], [flappers] not an array, nothing
    parsed) it answers with an error and no scores. *)
Theorem handleDampReq_outcome (body : Body) :
  match body with
  | Parsed (Some (IsArray flappers)) =>
      handleDampReq findMemberByAddress body =
      Responded
        (flat_map (fun flapper =>
                     match findMemberByAddress flapper with
                     | Some member => [scoreOf member]
                     | None => []
                     end) flappers)
  | _ => exists err, handleDampReq findMemberByAddress body = Rejected err
  end.
Proof.
  destruct body as [|[[|flappers]|]];
    unfold handleDampReq, validateRequest; eauto.
  now rewrite fold_reduce.
Qed.

End HandlerClaims.

(** ** The scenarios, run *)

Section Scenarios.
Import Decision Fanout Scenario.

Example unanimous_quorum_damps :
  getMembersToDamp unanimous 2 config = [x].
Proof. reflexivity. Qed.

Example one_high_score_does_not_damp :
  getMembersToDamp oneHigh 2 config = [].
Proof. reflexivity. Qed.

Example scores_object_is_passed_over :
  getMembersToDamp (scoresNotArray :: unanimous) 2 config = [x] /\
  getMembersToDamp [scoresNotArray; scoresNotArray] 0 config = [].
Proof. split; reflexivity. Qed.

(** The order of the result follows the order of arrival. *)
Example result_order_follows_arrival :
  getMembersToDamp [listsXY; listsYX] 2 config = [x; y] /\
  getMembersToDamp [listsYX; listsXY] 2 config = [y; x].
Proof. split; reflexivity. Qed.

(** Three observers, r-val 3: the first error already puts the quorum
    out of reach, and the replies that follow are not reported. *)
Example first_error_aborts :
  invocations
    (deliver [x] 3
       [(observerB, Failed "timeout");
        (observerA, Answered (plain 150));
        (observerC, Answered (gossiping 200))]
       (_fanoutDampReqs [x] observers 3))
  = [Unattainable (UnattainableRValError [x] 3 ["timeout"])].
Proof. reflexivity. Qed.

(** Changes that arrive before the quorum is reached are applied. *)
Example early_changes_are_applied :
  membershipUpdates
    (deliver [x] 2
       [(observerA, Answered (gossiping 150));
        (observerB, Answered (plain 200))]
       (_fanoutDampReqs [x] observers 2))
  = [[change]].
Proof. reflexivity. Qed.

Example handler_omits_unknown_flappers :
  Handler.handleDampReq findMemberByAddress
    (Handler.Parsed (Some (IsArray [x; y; x])))
  = Handler.Responded [mkScore x 42; mkScore x 42] /\
  Handler.handleDampReq findMemberByAddress
    (Handler.Parsed (Some NotArray))
  = Handler.Rejected
      (Handler.Message "Bad request: flappers is not an Array").
Proof. split; reflexivity. Qed.

End Scenarios.

(** ** Instances and the remaining claims *)

Section Instances.
Import Decision Fanout Scenario.

(** C10.  The decision counts tuples, not observers: a single
    response (one observer) that lists the same address in [rVal = 2]
    tuples, each at or above the limit, gets that address damped. *)
Theorem getMembersToDamp_counts_tuples_not_observers :
  exists (r : DampReqResponse) (rVal : Z) (config : Config) (a : string),
    Z.of_nat (List.length (tuplesFor a [r])) = rVal /\
    Forall (fun s => dampScoringSuppressLimit config <= dampScore s)
           (tuplesFor a [r]) /\
    Z.of_nat (List.length (observersOf a [r])) < rVal /\
    In a (getMembersToDamp [r] rVal config).
Proof.
  exists doubled, 2, config, x. repeat split.
  - repeat constructor; simpl; lia.
  - simpl. auto.
Qed.

Lemma getMembersToDamp_iff_witness :
  1 <= 2 /\
  (In x (getMembersToDamp unanimous 2 config) <->
   2 <= Z.of_nat (List.length (tuplesFor x unanimous)) /\
   Forall (fun s => dampScoringSuppressLimit config <= dampScore s)
          (tuplesFor x unanimous)).
Proof.
  assert (1 <= 2) as H by lia.
  refine (conj H _).
  exact (proj1 (proj2 (getMembersToDamp_iff unanimous 2 config x)) H).
Defined.

(** C1, as stated, fails for a quorum size of zero: nobody reports on
    [y], so no tuple is grouped under it; then "at least 0 tuples" and
    "every score at or above the limit" both hold of [y], and yet [y]
    is not returned, since only addresses that are keys of the grouping
    are looked at. *)
Lemma getMembersToDamp_zero_quorum_unreported :
  tuplesFor y unanimous = [] /\
  getMembersToDamp unanimous 0 config = [x] /\
  ~ (In y (getMembersToDamp unanimous 0 config) <->
     0 <= Z.of_nat (List.length (tuplesFor y unanimous)) /\
     Forall (fun s => dampScoringSuppressLimit config <= dampScore s)
            (tuplesFor y unanimous)).
Proof.
  split; [reflexivity|]. split; [reflexivity|].
  intros [_ H].
  assert (In y (getMembersToDamp unanimous 0 config)) as Hin.
  { apply H. split; [simpl; lia | constructor]. }
  vm_compute in Hin. destruct Hin as [E|[]]. discriminate E.
Qed.

Lemma getMembersToDamp_Permutation_witness :
  Permutation unanimous reordered /\
  Permutation (getMembersToDamp unanimous 2 config)
              (getMembersToDamp reordered 2 config) /\
  (forall a, In a (getMembersToDamp unanimous 2 config) <->
             In a (getMembersToDamp reordered 2 config)).
Proof.
  assert (Permutation unanimous reordered) as HP.
  { apply Permutation_sym.
    exact (Permutation_cons_append
             [reportOf observerA 150; reportOf observerB 200]
             (reportOf observerC 120)). }
  split; [exact HP | apply getMembersToDamp_Permutation; exact HP].
Defined.

(** C5, as stated, fails: with two observers and r-val 1 the first
    success consumes the continuation; the second reply succeeds and
    carries a changes array, and those changes never reach
    [membership.update]. *)
Lemma late_changes_are_not_applied :
  invocations
    (deliver [x] 1 [(observerA, Answered (plain 150))]
       (_fanoutDampReqs [x] twoObservers 1))
  = [Results [enrich observerA (plain 150)]] /\
  callbackLive
    (deliver [x] 1 [(observerA, Answered (plain 150))]
       (_fanoutDampReqs [x] twoObservers 1)) = false /\
  changes (gossiping 200) = IsArray [change] /\
  membershipUpdates
    (deliver [x] 1
       [(observerA, Answered (plain 150));
        (observerB, Answered (gossiping 200))]
       (_fanoutDampReqs [x] twoObservers 1)) = [] /\
  ~ In [change]
      (membershipUpdates
         (deliver [x] 1
            [(observerA, Answered (plain 150));
             (observerB, Answered (gossiping 200))]
            (_fanoutDampReqs [x] twoObservers 1))).
Proof. repeat split. intros []. Qed.

Lemma late_reply_is_discarded_whole_witness :
  invocations
    (deliver [x] 1 [(observerA, Answered (plain 150))]
       (_fanoutDampReqs [x] twoObservers 1)) <> [] /\
  membershipUpdates
    (deliver [x] 1
       ([(observerA, Answered (plain 150))]
          ++ [(observerB, Answered (gossiping 200))])
       (_fanoutDampReqs [x] twoObservers 1))
  = membershipUpdates
      (deliver [x] 1 [(observerA, Answered (plain 150))]
         (_fanoutDampReqs [x] twoObservers 1)).
Proof.
  assert (invocations
            (deliver [x] 1 [(observerA, Answered (plain 150))]
               (_fanoutDampReqs [x] twoObservers 1)) <> []) as H
    by discriminate.
  refine (conj H _).
  exact (proj1 (proj2
           (late_reply_is_discarded_whole [x] twoObservers 1
              [(observerA, Answered (plain 150))] observerB
              (Answered (gossiping 200)) H))).
Defined.

Lemma addFlapper_idempotent_witness :
  (In x (JsObject.keys
           (Damper.dampedMembers
              (Damper.addFlapper config (Damper.mkFlapper x 5)
                                 Damper.new))) \/
   In x (JsObject.keys
           (Damper.flappers
              (Damper.addFlapper config (Damper.mkFlapper x 5)
                                 Damper.new)))) /\
  Damper.addFlapper config (Damper.mkFlapper x 9)
    (Damper.addFlapper config (Damper.mkFlapper x 5) Damper.new)
  = Damper.addFlapper config (Damper.mkFlapper x 5) Damper.new.
Proof.
  assert (In x (JsObject.keys
                  (Damper.dampedMembers
                     (Damper.addFlapper config (Damper.mkFlapper x 5)
                                        Damper.new))) \/
          In x (JsObject.keys
                  (Damper.flappers
                     (Damper.addFlapper config (Damper.mkFlapper x 5)
                                        Damper.new)))) as H
    by (right; simpl; left; reflexivity).
  split; [exact H|].
  exact (proj2 (addFlapper_idempotent config (Damper.mkFlapper x 9)
                  (Damper.addFlapper config (Damper.mkFlapper x 5)
                                     Damper.new)) H).
Defined.

End Instances.

(* ================================================================== *)
(** * Part III: further properties of the code                         *)
(* ================================================================== *)

(** ** The decision *)

Section DecisionFurther.
Import Decision.

Lemma existsb_eqb_In a l : existsb (String.eqb a) l = true <-> In a l.
Proof.
  rewrite existsb_exists. split.
  - intros (b & Hb & E). apply String.eqb_eq in E. now subst.
  - intros H. exists a. split; [exact H | apply String.eqb_refl].
Qed.

Lemma keys_groupScore o s :
  JsObject.keys (groupScore o s) =
  if existsb (String.eqb (member s)) (JsObject.keys o)
  then JsObject.keys o else JsObject.keys o ++ [member s].
Proof.
  unfold groupScore.
  destruct (existsb (String.eqb (member s)) (JsObject.keys o)) eqn:E.
  - apply keys_set_present. now apply existsb_eqb_In.
  - apply keys_set_absent. rewrite <- existsb_eqb_In. congruence.
Qed.

Lemma keys_fold_groupScore ts : forall o,
  JsObject.keys (fold_left groupScore ts o) =
  fold_left (fun seen a =>
               if existsb (String.eqb a) seen then seen else seen ++ [a])
            (map member ts) (JsObject.keys o).
Proof.
  induction ts as [|s ts IH]; intros o; simpl; auto.
  now rewrite IH, keys_groupScore.
Qed.

Lemma keys_groupAll rs :
  JsObject.keys (groupAll rs) = View.firstSeen (map member (allTuples rs)).
Proof. rewrite groupAll_tuples. apply keys_fold_groupScore. Qed.

(** X1.  The result lists the addresses in the order in which the
    responses first name them, keeping those whose tuples pass the
    quorum and the limit: it is the filter of that list of first
    appearances. *)
Theorem getMembersToDamp_in_order_of_first_report rs rVal config :
  getMembersToDamp rs rVal config =
  filter (View.qualifies rs rVal config)
         (View.firstSeen (map member (allTuples rs))).
Proof.
  unfold getMembersToDamp. rewrite fold_pickMember. simpl.
  rewrite <- keys_groupAll. apply filter_ext_in.
  intros a Ha. rewrite groupAll_get. unfold View.qualifies.
  apply in_keys_groupAll in Ha.
  destruct (tuplesFor a rs); [congruence | reflexivity].
Qed.

(** X2.  No address is returned twice, and every returned address is
    named by a tuple of some response's scores array, with a score at or
    above the suppress limit. *)
Theorem getMembersToDamp_returns_reported_members rs rVal config :
  NoDup (getMembersToDamp rs rVal config) /\
  forall a, In a (getMembersToDamp rs rVal config) ->
    exists r l s,
      In r rs /\ scores r = IsArray l /\ In s l /\ member s = a /\
      dampScoringSuppressLimit config <= dampScore s.
Proof.
  split; [apply getMembersToDamp_NoDup|].
  intros a Ha. apply in_getMembersToDamp in Ha.
  destruct Ha as (Hne & _ & Hall).
  destruct (tuplesFor a rs) as [|s g] eqn:Ht; [congruence|].
  assert (In s (tuplesFor a rs)) as Hs by (rewrite Ht; now left).
  inversion Hall as [|? ? Hlim _]; subst.
  unfold tuplesFor in Hs. apply filter_In in Hs. destruct Hs as [Hs Hm].
  apply String.eqb_eq in Hm.
  unfold allTuples in Hs. apply in_flat_map in Hs.
  destruct Hs as (r & Hr & Hsr). unfold responseTuples in Hsr.
  destruct (scores r) as [|l] eqn:Hl; [destruct Hsr|].
  exists r, l, s. auto.
Qed.

(** X3.  One low score is a veto: an address that some tuple of some
    scores array reports below the suppress limit is not returned,
    whatever the other observers say and whatever [rVal] is. *)
Theorem getMembersToDamp_low_score_vetoes rs rVal config r l s :
  In r rs -> scores r = IsArray l -> In s l ->
  dampScore s < dampScoringSuppressLimit config ->
  ~ In (member s) (getMembersToDamp rs rVal config).
Proof.
  intros Hr Hl Hs Hlow Hin. apply in_getMembersToDamp in Hin.
  destruct Hin as (_ & _ & Hall). rewrite Forall_forall in Hall.
  assert (In s (tuplesFor (member s) rs)) as Hs'.
  { unfold tuplesFor. apply filter_In. split; [|apply String.eqb_refl].
    unfold allTuples. apply in_flat_map. exists r. split; [exact Hr|].
    unfold responseTuples. now rewrite Hl. }
  specialize (Hall s Hs'). lia.
Qed.

(** X4.  Asking for more cannot damp more: raising [rVal] or the
    suppress limit only removes addresses from the result. *)
Theorem getMembersToDamp_antitone rs rVal rVal' config config' :
  rVal <= rVal' ->
  dampScoringSuppressLimit config <= dampScoringSuppressLimit config' ->
  incl (getMembersToDamp rs rVal' config') (getMembersToDamp rs rVal config).
Proof.
  intros HrVal Hlim a. rewrite !in_getMembersToDamp.
  intros (Hne & Hlen & Hall). repeat split; auto; [lia|].
  rewrite Forall_forall in *. intros s Hs. specialize (Hall s Hs). lia.
Qed.

End DecisionFurther.

(** ** The fan-out *)

Section FanoutFurther.
Import Fanout.
Variables (flapperAddrs : list string)
          (dampReqMembers : list Membership.Member) (rVal : Z).

Local Abbreviation start :=
  (_fanoutDampReqs flapperAddrs dampReqMembers rVal).
Local Abbreviation after l := (deliver flapperAddrs rVal l start).
Local Abbreviation size l := (Z.of_nat (List.length l)).

Lemma answered_app l1 l2 :
  View.answered (l1 ++ l2) = View.answered l1 ++ View.answered l2.
Proof. apply flat_map_app. Qed.

Lemma piggybacked_app l1 l2 :
  View.piggybacked (l1 ++ l2) = View.piggybacked l1 ++ View.piggybacked l2.
Proof. apply flat_map_app. Qed.

Lemma replies_split (l : list (string * Reply)) :
  List.length l =
  (List.length (View.answered l) + List.length (failures l))%nat.
Proof.
  induction l as [|[a [e|r]] l IH]; simpl; auto.
  unfold failures in *. simpl. lia.
Qed.

(** A reply that finds the continuation in place is recorded. *)
Lemma onDampReq_records addr reply st :
  callbackLive st = true ->
  results (onDampReq flapperAddrs rVal addr reply st) =
    results st ++ View.answered [(addr, reply)] /\
  membershipUpdates (onDampReq flapperAddrs rVal addr reply st) =
    membershipUpdates st ++ View.piggybacked [(addr, reply)].
Proof.
  intros Hlive. unfold onDampReq. rewrite Hlive. simpl.
  destruct reply as [err|res]; simpl.
  - rewrite !app_nil_r.
    destruct (rVal <=? _); [auto|]. destruct (_ <? _); auto.
  - destruct (changes res); simpl; rewrite ?app_nil_r;
      (destruct (rVal <=? _); [auto|]; destruct (_ <? _); auto).
Qed.

Lemma live_before l1 l2 :
  callbackLive (after (l1 ++ l2)) = true -> callbackLive (after l1) = true.
Proof.
  intros H. destruct (callbackLive (after l1)) eqn:E; auto.
  rewrite deliver_app, deliver_consumed in H by assumption. congruence.
Qed.

Lemma after_records l x :
  callbackLive (after l) = true ->
  results (after (l ++ [x])) = View.answered (l ++ [x]) /\
  membershipUpdates (after (l ++ [x])) = View.piggybacked (l ++ [x]).
Proof.
  revert x. induction l as [|y l IH] using rev_ind; intros [addr reply] Hl.
  - simpl. destruct (onDampReq_records addr reply start eq_refl) as [-> ->].
    simpl. now rewrite !app_nil_r.
  - rewrite deliver_snoc.
    destruct (onDampReq_records addr reply _ Hl) as [-> ->].
    destruct (IH y (live_before _ _ Hl)) as [-> ->].
    now rewrite <- answered_app, <- piggybacked_app.
Qed.

Lemma live_records l :
  callbackLive (after l) = true ->
  results (after l) = View.answered l /\
  membershipUpdates (after l) = View.piggybacked l.
Proof.
  destruct l as [|x l _] using rev_ind; [auto|].
  intros H. apply after_records. eapply live_before; eauto.
Qed.

(** The calls of the continuation, read off the replies. *)
Lemma decided_by_counts (replies : list (string * Reply)) :
  1 <= rVal <= size dampReqMembers ->
  (List.length replies <= List.length dampReqMembers)%nat ->
  invocations (after replies) =
  if rVal <=? size (View.answered replies) then
    [Results (firstn (Z.to_nat rVal) (View.answered replies))]
  else if size dampReqMembers - rVal + 1 <=? size (failures replies) then
    [Unattainable
       (UnattainableRValError flapperAddrs rVal
          (firstn (Z.to_nat (size dampReqMembers - rVal + 1))
                  (failures replies)))]
  else [].
Proof.
  intros HrVal Hlen.
  pose proof (replies_split replies) as Hsplit.
  destruct (fanout_trace flapperAddrs dampReqMembers rVal replies)
    as [(Hlive & Hinv & Hpend & Herr & Hrest)
       |(Hdead & l1 & x & l2 & Hl & Hpre & Heq & Herr & Hpend & Hgrow
         & Hcases)].
  - (* still waiting *)
    rewrite Hinv.
    destruct (live_records replies Hlive) as [Hres _].
    destruct replies as [|r replies].
    + simpl. destruct (Z.leb_spec rVal 0); [lia|].
      destruct (Z.leb_spec (size dampReqMembers - rVal + 1) 0); [lia|auto].
    + destruct Hrest as [Hlt Hin]; [discriminate|].
      unfold quorumOutOfReach in Hin.
      rewrite Hpend in Hin. rewrite Hres in Hin, Hlt.
      destruct (Z.leb_spec rVal (size (View.answered (r :: replies))));
        [lia|].
      destruct (Z.leb_spec (size dampReqMembers - rVal + 1)
                           (size (failures (r :: replies)))); [lia|auto].
  - (* decided by the reply [x] *)
    destruct (after_records l1 x Hpre) as [Hres _].
    rewrite <- Heq in Hres.
    pose proof (replies_split (l1 ++ [x])) as Hsplit1.
    rewrite length_app in Hsplit1. simpl in Hsplit1.
    assert (size (results (after l1)) < rVal /\
            size (failures l1) <= size dampReqMembers - rVal) as [Hs1 He1].
    { destruct (fanout_trace flapperAddrs dampReqMembers rVal l1)
        as [(_ & _ & Hp1 & _ & Hr1)|(Hd & _)]; [|congruence].
      destruct (live_records l1 Hpre) as [Hres1 _].
      pose proof (replies_split l1) as Hsplit0.
      destruct l1 as [|y l1]; [simpl; lia|].
      destruct Hr1 as [Hlt Hin]; [discriminate|].
      unfold quorumOutOfReach in Hin.
      rewrite Hres1 in Hin, Hlt |- *. lia. }
    assert (replies = (l1 ++ [x]) ++ l2) as Hl'
      by (rewrite <- app_assoc; exact Hl).
    assert (View.answered replies =
            View.answered (l1 ++ [x]) ++ View.answered l2) as Ha
      by (rewrite Hl'; apply answered_app).
    assert (failures replies = failures (l1 ++ [x]) ++ failures l2) as Hf
      by (rewrite Hl'; apply failures_app).
    assert (size (failures (l1 ++ [x])) <= size (failures l1) + 1) as He.
    { rewrite failures_app, length_app. destruct x as [a [e|r]]; simpl; lia. }
    destruct Hcases as [(Hok & Hi)|(Hlt & Hout & Hi)]; rewrite Hi.
    + rewrite Hres in Hok, Hgrow.
      assert (size (View.answered (l1 ++ [x])) = rVal) as Hexact by lia.
      rewrite Ha, length_app.
      destruct (Z.leb_spec rVal
                  (Z.of_nat (List.length (View.answered (l1 ++ [x]))
                             + List.length (View.answered l2)))); [|lia].
      replace (Z.to_nat rVal)
        with (List.length (View.answered (l1 ++ [x]))) by lia.
      now rewrite firstn_exact, Hres.
    + unfold quorumOutOfReach in Hout.
      rewrite Hpend in Hout. rewrite Hres in Hout, Hlt.
      assert (size (failures (l1 ++ [x])) = size dampReqMembers - rVal + 1)
        as Hexact by lia.
      assert (size replies = size (l1 ++ [x]) + size l2) as Hlen2
        by (rewrite Hl', length_app; lia).
      pose proof (replies_split l2) as Hsplit2.
      rewrite length_app in Hlen2. simpl in Hlen2.
      rewrite Ha, Hf, !length_app.
      destruct (Z.leb_spec rVal
                  (Z.of_nat (List.length (View.answered (l1 ++ [x]))
                             + List.length (View.answered l2)))); [lia|].
      destruct (Z.leb_spec (size dampReqMembers - rVal + 1)
                  (Z.of_nat (List.length (failures (l1 ++ [x]))
                             + List.length (failures l2)))); [|lia].
      replace (Z.to_nat (size dampReqMembers - rVal + 1))
        with (List.length (failures (l1 ++ [x]))) by lia.
      now rewrite firstn_exact, Herr.
Qed.


(** X6.  The changes handed to [membership.update] are those of the
    successful replies that arrived up to and including the reply that
    decided the fan-out, in order of arrival: all of them while the
    continuation is in place, and none of the later ones. *)
Theorem fanout_applies_changes_until_decided
    (replies : list (string * Reply)) :
  (callbackLive (after replies) = true /\
   membershipUpdates (after replies) = View.piggybacked replies)
  \/
  (exists k, (k < List.length replies)%nat /\
     callbackLive (after (firstn k replies)) = true /\
     callbackLive (after (firstn (S k) replies)) = false /\
     membershipUpdates (after replies) =
       View.piggybacked (firstn (S k) replies)).
Proof.
  destruct (fanout_trace flapperAddrs dampReqMembers rVal replies)
    as [(Hlive & _)|(Hdead & l1 & x & l2 & Hl & Hpre & Heq & _)].
  - left. split; [exact Hlive | now apply live_records].
  - right. exists (List.length l1). subst replies.
    replace (firstn (S (List.length l1)) (l1 ++ x :: l2)) with (l1 ++ [x]).
    2:{ change (x :: l2) with ([x] ++ l2). rewrite app_assoc.
        replace (S (List.length l1)) with (List.length (l1 ++ [x]))
          by (rewrite length_app; simpl; lia).
        now rewrite firstn_exact. }
    rewrite firstn_exact. repeat split; auto.
    + rewrite length_app. simpl. lia.
    + now rewrite <- Heq.
    + rewrite Heq. now apply after_records.
Qed.

(** X7.  With [rVal <= 0] the quorum is met before anything has
    succeeded: the first reply, even a failed one, makes the fan-out
    report success, with the successful responses so far (none, if the
    reply failed). *)
Theorem fanout_nonpositive_rVal_reports_first_reply addr (reply : Reply) :
  rVal <= 0 ->
  invocations (after [(addr, reply)]) =
    [Results (View.answered [(addr, reply)])].
Proof.
  intros H. simpl. unfold onDampReq. simpl.
  destruct reply as [err|res]; simpl.
  - destruct (Z.leb_spec rVal 0); [reflexivity | lia].
  - destruct (Z.leb_spec rVal 1); [reflexivity | lia].
Qed.

End FanoutFurther.

(** ** The fan-out: the claims, on the replies *)

Section FanoutOnReplies.
Import Fanout.
Variables (flapperAddrs : list string)
          (dampReqMembers : list Membership.Member) (rVal : Z).

Local Abbreviation start :=
  (_fanoutDampReqs flapperAddrs dampReqMembers rVal).
Local Abbreviation after l := (deliver flapperAddrs rVal l start).
Local Abbreviation size l := (Z.of_nat (List.length l)).

(** The continuation is in place exactly as long as it has not been
    called. *)
Lemma uncalled_iff_live l :
  invocations (after l) = [] <-> callbackLive (after l) = true.
Proof.
  destruct (fanout_trace flapperAddrs dampReqMembers rVal l)
    as [(Hlive & Hnil & _)
       |(Hdead & _ & _ & _ & _ & _ & _ & _ & _ & _ & Hcases)].
  - tauto.
  - split; [|congruence].
    destruct Hcases as [(_ & Hi)|(_ & _ & Hi)]; rewrite Hi; discriminate.
Qed.

(** The damp-reqs sent are those of the start, whatever arrives. *)
Lemma sent_after l :
  sent (after l) =
  map (fun m => (Membership.address m, flapperAddrs)) dampReqMembers.
Proof.
  induction l as [|[addr reply] l IH] using rev_ind; [reflexivity|].
  rewrite deliver_snoc.
  destruct (callbackLive (after l)) eqn:E.
  - destruct (onDampReq_live flapperAddrs rVal addr reply _ E)
      as (_ & _ & _ & Hs & _).
    cbv zeta in Hs. now rewrite Hs.
  - now rewrite onDampReq_consumed.
Qed.



(** C2.  A fan-out to [n] members with [1 <= rVal <= n] sends one
    damp-req to each; when every member's request has been answered
    once (the replies, in whatever order, come from the members asked)
    the continuation has been called exactly once, and with what the
    replies determine: if at least [rVal] of them succeeded, with the
    first [rVal] successful responses, each tagged with its sender;
    otherwise with the unattainable-r-val error for these flappers and
    this [rVal], carrying the failures up to the one that put the
    quorum out of reach.  No prefix of the run has a second call, and
    replies arriving afterwards add none. *)
Theorem fanout_calls_back_exactly_once (replies : list (string * Reply)) :
  1 <= rVal <= size dampReqMembers ->
  Permutation (map fst replies)
              (map Membership.address dampReqMembers) ->
  sent (after replies) =
    map (fun m => (Membership.address m, flapperAddrs)) dampReqMembers /\
  invocations (after replies) =
    [if rVal <=? size (View.answered replies)
     then Results (firstn (Z.to_nat rVal) (View.answered replies))
     else Unattainable
            (UnattainableRValError flapperAddrs rVal
               (firstn (Z.to_nat (size dampReqMembers - rVal + 1))
                       (failures replies)))] /\
  (forall k,
      (List.length (invocations (after (firstn k replies))) <= 1)%nat) /\
  (forall late,
      invocations (after (replies ++ late)) = invocations (after replies)).
Proof.
  intros HrVal Hperm.
  assert (List.length replies = List.length dampReqMembers) as Hlen.
  { apply Permutation_length in Hperm. now rewrite !length_map in Hperm. }
  assert (invocations (after replies) =
    [if rVal <=? size (View.answered replies)
     then Results (firstn (Z.to_nat rVal) (View.answered replies))
     else Unattainable
            (UnattainableRValError flapperAddrs rVal
               (firstn (Z.to_nat (size dampReqMembers - rVal + 1))
                       (failures replies)))]) as Hcall.
  { rewrite (decided_by_counts flapperAddrs dampReqMembers rVal replies
               HrVal) by lia.
    pose proof (replies_split replies) as Hsplit.
    destruct (Z.leb_spec rVal (size (View.answered replies)));
      [reflexivity|].
    destruct (Z.leb_spec (size dampReqMembers - rVal + 1)
                         (size (failures replies))); [reflexivity | lia]. }
  split; [apply sent_after|]. split; [exact Hcall|]. split.
  - intros k. apply invocations_at_most_one.
  - intros late. rewrite deliver_app, deliver_consumed; auto.
    destruct (callbackLive (after replies)) eqn:E; auto.
    apply uncalled_iff_live in E. rewrite Hcall in E. discriminate.
Qed.


End FanoutOnReplies.

(** ** The damp-req handler *)

Section HandlerFurther.
Import Handler.
Variable findMemberByAddress : string -> option Membership.Member.

(** X8.  When the membership finds members by their address, the
    response to a request with a [flappers] array names exactly the
    requested flappers that the membership knows, in the order of the
    request and as often as they were asked for; so it never has more
    tuples than the request has flappers. *)
Theorem handleDampReq_names_known_flappers (flappers : list string) :
  (forall f m, findMemberByAddress f = Some m -> Membership.address m = f) ->
  exists scores,
    handleDampReq findMemberByAddress (Parsed (Some (IsArray flappers)))
      = Responded scores /\
    map member scores = View.known findMemberByAddress flappers /\
    (List.length scores <= List.length flappers)%nat.
Proof.
  intros Hfind. eexists. split.
  - exact (handleDampReq_outcome findMemberByAddress
             (Parsed (Some (IsArray flappers)))).
  - assert (map member
              (flat_map (fun flapper =>
                           match findMemberByAddress flapper with
                           | Some member => [scoreOf member]
                           | None => []
                           end) flappers)
            = View.known findMemberByAddress flappers) as Hnames.
    { induction flappers as [|f fl IH]; simpl; auto.
      destruct (findMemberByAddress f) as [m|] eqn:E; simpl.
      - rewrite IH. f_equal. now apply Hfind.
      - exact IH. }
    split; [exact Hnames|].
    rewrite <- (length_map member), Hnames. apply filter_length_le.
Qed.

End HandlerFurther.

(** ** The flapper set and the damped set *)

Section DamperFurther.
Import Damper.
Variable config : Config.

Lemma del_set_absent {V} k (v : V) o :
  ~ In k (JsObject.keys o) -> JsObject.del k (JsObject.set k v o) = o.
Proof.
  induction o as [|[k' v'] o IH]; simpl.
  - now rewrite String.eqb_refl.
  - destruct (String.eqb_spec k k') as [->|Hne]; simpl; [tauto|].
    intros H. apply String.eqb_neq in Hne. rewrite Hne, IH; tauto.
Qed.

Lemma _stopDampTimer_flag d : isDampTimerEnabled (_stopDampTimer d) = false.
Proof.
  unfold _stopDampTimer. destruct (isDampTimerEnabled d) eqn:E; auto.
Qed.

Lemma _startDampTimer_flag d :
  isDampTimerEnabled (_startDampTimer config d) = true.
Proof.
  unfold _startDampTimer, schedule.
  destruct (isDampTimerEnabled d) eqn:E; auto.
Qed.

(** X9.  [removeFlapper] is idempotent, and on an address that is not a
    flapper it changes nothing at all. *)
Theorem removeFlapper_idempotent x d :
  removeFlapper x (removeFlapper x d) = removeFlapper x d /\
  (~ In (addressOf x) (JsObject.keys (flappers d)) -> removeFlapper x d = d).
Proof.
  assert (forall d', JsObject.has (addressOf x) (flappers d') = false ->
                     removeFlapper x d' = d') as Hnoop.
  { intros d' H. unfold removeFlapper. now rewrite H. }
  split.
  - apply Hnoop. destruct (removeFlapper_sets x d) as (_ & -> & _).
    unfold JsObject.has. now rewrite get_del_same.
  - intros H. apply Hnoop. rewrite <- has_true_iff in H.
    now destruct (JsObject.has (addressOf x) (flappers d)).
Qed.

(** X10.  Adding a flapper that is new to both sets and removing it
    again by its address gives back the flapper set and the damped set,
    and, when the damp timer was enabled exactly if there were
    flappers, its flag as well. *)
Theorem addFlapper_then_removeFlapper f d :
  ~ In (address f) (JsObject.keys (flappers d)) ->
  ~ In (address f) (JsObject.keys (dampedMembers d)) ->
  let d' := removeFlapper (OfAddress (address f)) (addFlapper config f d) in
  flappers d' = flappers d /\
  dampedMembers d' = dampedMembers d /\
  (isDampTimerEnabled d = negb (_getFlapperCount d =? 0) ->
   isDampTimerEnabled d' = isDampTimerEnabled d).
Proof.
  intros Hf Hd d'. subst d'.
  rewrite <- has_true_iff in Hf. rewrite <- has_true_iff in Hd.
  destruct (JsObject.has (address f) (flappers d)) eqn:Ef; [tauto|].
  destruct (JsObject.has (address f) (dampedMembers d)) eqn:Ed; [tauto|].
  destruct (removeFlapper_sets (OfAddress (address f))
              (addFlapper config f d)) as (-> & -> & _).
  destruct (addFlapper_sets config f d) as [-> ->].
  rewrite Ef, Ed. simpl.
  assert (~ In (address f) (JsObject.keys (flappers d))) as Hout
    by (rewrite <- has_true_iff; congruence).
  rewrite del_set_absent by assumption.
  repeat split.
  intros Hflag.
  unfold addFlapper. rewrite Ef, Ed.
  unfold _getFlapperCount at 1. simpl.
  rewrite keys_set_absent, length_app by assumption. simpl.
  unfold _getFlapperCount in Hflag.
  destruct (JsObject.keys (flappers d)) as [|k ks] eqn:Ek.
  - simpl in *.
    unfold removeFlapper. simpl.
    destruct (_startDampTimer_sets config
                (mk (JsObject.set (address f) f (flappers d)) (dampTimer d)
                    (isDampTimerEnabled d) (dampedMembers d)
                    (dampedMemberExpirationTimer d) (timers d)
                    (madeDamped d))) as [Hfl _].
    simpl in Hfl. rewrite Hfl.
    unfold JsObject.has. rewrite get_set_same. simpl.
    unfold _getFlapperCount. simpl.
    rewrite del_set_absent by (rewrite Ek; auto). rewrite Ek. simpl.
    now rewrite _stopDampTimer_flag.
  - simpl in Hflag.
    replace (Z.of_nat (List.length (k :: ks) + 1) =? 1) with false
      by (symmetry; apply Z.eqb_neq; simpl; lia).
    unfold removeFlapper. simpl.
    unfold JsObject.has. rewrite get_set_same. simpl.
    unfold _getFlapperCount. simpl.
    rewrite del_set_absent by (rewrite Ek; auto). rewrite Ek.
    replace (Z.of_nat (List.length (k :: ks)) =? 0) with false
      by (symmetry; apply Z.eqb_neq; simpl; lia).
    reflexivity.
Qed.

Lemma _dampMember_arms a now d :
  dampedMemberExpirationTimer (_dampMember config a now d) <> None.
Proof.
  unfold _dampMember.
  match goal with |- context [removeFlapper ?x ?d1] =>
    destruct (removeFlapper_sets x d1) as (_ & _ & H3) end.
  simpl in *. rewrite H3. simpl.
  destruct (dampedMemberExpirationTimer d) eqn:E; simpl.
  - rewrite ?H3. simpl. congruence.
  - discriminate.
Qed.

(** X11.  Damping a member that is already damped keeps one entry for
    it: the keys of the damped set stay as they are, the entry's
    timestamp becomes the later time, no flapper is touched and no
    second expiration timer is scheduled; only [makeDamped] is called
    again. *)
Theorem dampMember_again a t1 t2 d :
  let d1 := _dampMember config a t1 d in
  let d2 := _dampMember config a t2 d1 in
  JsObject.keys (dampedMembers d2) = JsObject.keys (dampedMembers d1) /\
  JsObject.get a (dampedMembers d2) = Some (mkDamping t2) /\
  flappers d2 = flappers d1 /\
  dampedMemberExpirationTimer d2 = dampedMemberExpirationTimer d1 /\
  timers d2 = timers d1 /\
  madeDamped d2 = madeDamped d1 ++ [a].
Proof.
  intros d1 d2.
  assert (JsObject.has a (flappers d1) = false) as Hgone.
  { subst d1. destruct (_dampMember_sets config a t1 d) as [-> _].
    unfold JsObject.has. now rewrite get_del_same. }
  assert (In a (JsObject.keys (dampedMembers d1))) as Hin.
  { subst d1. destruct (_dampMember_sets config a t1 d) as [_ ->].
    apply in_keys_set. now left. }
  pose proof (_dampMember_arms a t1 d) as Harmed. fold d1 in Harmed.
  subst d2. unfold _dampMember at 1 2 3 4 5 6.
  unfold removeFlapper. simpl. rewrite Hgone. simpl.
  destruct (dampedMemberExpirationTimer d1) eqn:E; [|congruence].
  simpl. rewrite get_set_same, keys_set_present by assumption. auto 10.
Qed.

(** The scan reports what it deletes and alters nothing else. *)
Lemma expireScan_report D now ks : forall i dm und,
  exists new,
    snd (expireScan D now i ks dm und) = und ++ new /\
    Forall (fun u =>
              D <= timeDamped u /\
              In (undampedMember u) ks /\
              JsObject.get (undampedMember u) dm <> None /\
              JsObject.get (undampedMember u)
                           (fst (expireScan D now i ks dm und)) = None)
           new /\
    (forall k e,
        JsObject.get k (fst (expireScan D now i ks dm und)) = Some e ->
        JsObject.get k dm = Some e) /\
    (forall k,
        JsObject.get k (fst (expireScan D now i ks dm und)) = None ->
        JsObject.get k dm = None \/ In k (map undampedMember new)) /\
    (new = [] -> fst (expireScan D now i ks dm und) = dm).
Proof.
  induction ks as [|k0 ks IH]; intros i dm und.
  - exists []. simpl. rewrite app_nil_r. repeat split; auto.
  - simpl. destruct (JsObject.get k0 dm) as [e0|] eqn:E0.
    + destruct (Z.leb_spec D (now i - timestamp e0)) as [Hexp|Hkeep].
      * destruct (IH (S i) (JsObject.del k0 dm)
                     (und ++ [mkUndamped k0 (now i - timestamp e0)]))
          as (new & Hsnd & Hall & Hsome & Hnone & _).
        assert (forall k e,
                   JsObject.get k (JsObject.del k0 dm) = Some e ->
                   JsObject.get k dm = Some e /\ k <> k0) as Hdel.
        { intros k e H. destruct (String.eqb_spec k k0) as [->|Hne].
          - rewrite get_del_same in H. discriminate.
          - rewrite get_del_other in H by assumption. auto. }
        exists (mkUndamped k0 (now i - timestamp e0) :: new).
        rewrite Hsnd, <- app_assoc. simpl. repeat split; auto.
        -- constructor.
           ++ simpl. repeat split; auto; [congruence|].
              match goal with |- ?g = None =>
                destruct g as [e|] eqn:Eg; auto end.
              apply Hsome, Hdel in Eg. tauto.
           ++ eapply Forall_impl; [|exact Hall].
              intros u (H1 & H2 & H3 & H4). simpl. repeat split; auto.
              destruct (JsObject.get (undampedMember u)
                          (JsObject.del k0 dm)) as [e|] eqn:Eu;
                [|congruence].
              apply Hdel in Eu. destruct Eu as [-> _]. discriminate.
        -- intros k e H. now apply Hsome, Hdel in H.
        -- intros k H. apply Hnone in H. destruct H as [H|H]; auto.
           destruct (String.eqb_spec k k0) as [->|Hne]; auto.
           rewrite get_del_other in H by assumption. auto.
        -- discriminate.
      * destruct (IH (S i) dm und) as (new & Hsnd & Hall & Hrest).
        exists new. split; [exact Hsnd|]. split; [|exact Hrest].
        eapply Forall_impl; [|exact Hall].
        intros u (H1 & H2 & H3 & H4). simpl. auto.
    + destruct (IH (S i) dm und) as (new & Hsnd & Hall & Hrest).
      exists new. split; [exact Hsnd|]. split; [|exact Hrest].
      eapply Forall_impl; [|exact Hall].
      intros u (H1 & H2 & H3 & H4). simpl. auto.
Qed.

(** X12.  A tick reports what it removes and touches nothing else:
    every reported member was damped for at least the suppress duration
    and is gone; every entry that is gone is reported; an entry that
    stays keeps its timestamp; and when nothing is reported the damper
    is exactly as before. *)
Theorem expireDampedMembers_report now d :
  let d' := fst (_expireDampedMembers config now d) in
  let undampedMembers := snd (_expireDampedMembers config now d) in
  Forall (fun u =>
            dampScoringSuppressDuration config <= timeDamped u /\
            In (undampedMember u) (JsObject.keys (dampedMembers d)) /\
            ~ In (undampedMember u) (JsObject.keys (dampedMembers d')))
         undampedMembers /\
  (forall k, In k (JsObject.keys (dampedMembers d)) ->
             In k (JsObject.keys (dampedMembers d')) \/
             In k (map undampedMember undampedMembers)) /\
  (forall k e, JsObject.get k (dampedMembers d') = Some e ->
               JsObject.get k (dampedMembers d) = Some e) /\
  (undampedMembers = [] -> d' = d).
Proof.
  intros d' und. subst d' und. unfold _expireDampedMembers.
  destruct (expireScan_report (dampScoringSuppressDuration config) now
              (JsObject.keys (dampedMembers d)) 0 (dampedMembers d) [])
    as (new & Hsnd & Hall & Hsome & Hnone & Hsame).
  destruct (expireScan _ _ _ _ _ _) as [remaining und] eqn:Escan.
  simpl in *. subst und. repeat split.
  - eapply Forall_impl; [|exact Hall].
    intros u (H1 & H2 & H3 & H4). repeat split; auto.
    rewrite in_keys_get. congruence.
  - intros k Hk.
    destruct (JsObject.get k remaining) as [e|] eqn:Ek.
    + left. rewrite in_keys_get. congruence.
    + right. apply Hnone in Ek. destruct Ek as [Ek|Ek]; auto.
      apply in_keys_get in Hk. contradiction.
  - exact Hsome.
  - intros Hnil. rewrite (Hsame Hnil). now destruct d.
Qed.

End DamperFurther.

(** ** The timers *)

Section TimersFacts.
Import Node.

Lemma find_snoc {A} (f : A -> bool) l x :
  find f (l ++ [x]) =
  match find f l with
  | Some y => Some y
  | None => if f x then Some x else None
  end.
Proof.
  induction l as [|a l IH]; simpl; auto.
  destruct (f a); auto.
Qed.

Lemma taskOf_scheduled h tm task :
  taskOf h tm = Some task -> In h (map fst (Timers.scheduled tm)).
Proof.
  unfold taskOf.
  destruct (find _ (Timers.scheduled tm)) as [e|] eqn:E; [|discriminate].
  intros _. apply find_some in E. destruct E as [Hin Heq].
  apply Nat.eqb_eq in Heq. subst h. now apply in_map.
Qed.

Lemma taskOf_below h tm task :
  timersOk tm -> taskOf h tm = Some task -> (h < Timers.nextHandle tm)%nat.
Proof. intros [_ Hb] H. eapply Hb, taskOf_scheduled; eauto. Qed.

Lemma taskOf_setTimeout task delay tm h :
  timersOk tm ->
  taskOf h (snd (Timers.setTimeout task delay tm)) =
  if Nat.eqb h (Timers.nextHandle tm) then Some task else taskOf h tm.
Proof.
  intros Hok. unfold taskOf at 1. simpl. rewrite find_snoc. simpl.
  fold (taskOf h tm).
  destruct (Nat.eqb_spec h (Timers.nextHandle tm)) as [->|Hne].
  - destruct (taskOf (Timers.nextHandle tm) tm) as [t|] eqn:E.
    + apply (taskOf_below _ _ _ Hok) in E. lia.
    + unfold taskOf in E.
      destruct (find _ (Timers.scheduled tm)); [discriminate|].
      now rewrite Nat.eqb_refl.
  - unfold taskOf.
    destruct (find _ (Timers.scheduled tm)); auto.
    destruct (Nat.eqb_spec (Timers.nextHandle tm) h); [congruence|auto].
Qed.

Lemma taskOf_clearTimeout h0 tm h :
  taskOf h (Timers.clearTimeout (Some h0) tm) =
  if Nat.eqb h h0 then None else taskOf h tm.
Proof.
  unfold taskOf. simpl.
  induction (Timers.scheduled tm) as [|e l IH]; simpl.
  - now destruct (Nat.eqb h h0).
  - destruct (Nat.eqb_spec (fst e) h0) as [E0|N0]; simpl.
    + rewrite IH. destruct (Nat.eqb_spec h h0) as [->|Hne]; auto.
      destruct (Nat.eqb_spec (fst e) h); [congruence|auto].
    + destruct (Nat.eqb_spec (fst e) h) as [E|N]; auto.
      destruct (Nat.eqb_spec h h0); [congruence|auto].
Qed.

Lemma timersOk_init : timersOk Timers.init.
Proof. split; [constructor | intros h []]. Qed.

Lemma timersOk_setTimeout task delay tm :
  timersOk tm -> timersOk (snd (Timers.setTimeout task delay tm)).
Proof.
  intros [Hnd Hb]. split; simpl; rewrite map_app; simpl.
  - apply NoDup_app; auto.
    + repeat constructor. simpl. tauto.
    + intros h Hh [<-|[]]. apply Hb in Hh. lia.
  - intros h Hh. apply in_app_or in Hh. destruct Hh as [Hh|[<-|[]]].
    + apply Hb in Hh. lia.
    + lia.
Qed.

Lemma timersOk_clearTimeout h tm :
  timersOk tm -> timersOk (Timers.clearTimeout h tm).
Proof.
  intros [Hnd Hb]. destruct h as [h|]; [|split; auto].
  assert (forall l : list (nat * (Timers.Task * Z)),
             incl (map fst (filter (fun e => negb (Nat.eqb (fst e) h)) l))
                  (map fst l)) as Hincl.
  { intros l x Hx. apply in_map_iff in Hx. destruct Hx as (e & <- & He).
    apply filter_In in He. apply in_map. tauto. }
  split; simpl.
  - clear Hb. induction (Timers.scheduled tm) as [|e l IH]; simpl; auto.
    inversion Hnd as [|? ? Hnot Hrest]; subst.
    destruct (negb (Nat.eqb (fst e) h)); simpl; auto.
    constructor; auto. intros Hin. apply Hnot. now apply Hincl in Hin.
  - intros x Hx. apply Hb. now apply Hincl in Hx.
Qed.

Lemma nextHandle_setTimeout task delay tm :
  Timers.nextHandle (snd (Timers.setTimeout task delay tm)) =
  S (Timers.nextHandle tm).
Proof. reflexivity. Qed.

Lemma nextHandle_clearTimeout h tm :
  Timers.nextHandle (Timers.clearTimeout h tm) = Timers.nextHandle tm.
Proof. now destruct h. Qed.

End TimersFacts.

(** ** The damper on the event loop: what every step keeps *)

Ltac split_sound :=
  refine (conj _ (conj _ (conj _ (conj _ (conj (conj _ _) _))))).

Ltac fields :=
  cbn [Damper.flappers Damper.dampTimer Damper.isDampTimerEnabled
       Damper.dampedMembers Damper.dampedMemberExpirationTimer
       Damper.timers Damper.madeDamped] in *.

Ltac sound_goals :=
  split_sound; unfold Damper.disjoint, Damper._getFlapperCount; fields.

Ltac open_sound H :=
  destruct H as (Hwf1 & Hwf2 & Hdis & Htm & [Hflag Hhandle] & Hexp);
  unfold Damper.disjoint, Damper._getFlapperCount in *; fields.

Section NodeSound.
Import Node.
Variable config : Config.

(** The expiration task is untouched by a new damp task, by clearing a
    handle that is not the expiration task, and by changes of the
    damped set once the expiration timer is armed. *)
Lemma expirationOk_new_damp_task d d' delay :
  timersOk (Damper.timers d) -> expirationOk d ->
  Damper.dampedMemberExpirationTimer d' =
    Damper.dampedMemberExpirationTimer d ->
  Damper.dampedMembers d' = Damper.dampedMembers d ->
  Damper.timers d' =
    snd (Timers.setTimeout Timers.DampTimerTask delay (Damper.timers d)) ->
  expirationOk d'.
Proof.
  unfold expirationOk. intros Htm Hexp -> Hdm Ht. rewrite Ht, Hdm.
  destruct (Damper.dampedMemberExpirationTimer d) as [he|].
  - intros h'. rewrite taskOf_setTimeout by assumption.
    destruct (Nat.eqb_spec h' (Timers.nextHandle (Damper.timers d)))
      as [->|Hne]; [|apply Hexp].
    split; [discriminate|]. intros E.
    pose proof (proj2 (Hexp he) eq_refl) as Hp.
    apply (taskOf_below _ _ _ Htm) in Hp. lia.
  - destruct Hexp as [Hempty Hnone]. split; auto.
    intros h. rewrite taskOf_setTimeout by assumption.
    destruct (Nat.eqb h (Timers.nextHandle (Damper.timers d)));
      [discriminate | apply Hnone].
Qed.

Lemma expirationOk_clear d d' h0 :
  expirationOk d ->
  taskOf h0 (Damper.timers d) <> Some Timers.ExpirationTimerTask ->
  Damper.dampedMemberExpirationTimer d' =
    Damper.dampedMemberExpirationTimer d ->
  Damper.dampedMembers d' = Damper.dampedMembers d ->
  Damper.timers d' = Timers.clearTimeout (Some h0) (Damper.timers d) ->
  expirationOk d'.
Proof.
  unfold expirationOk. intros Hexp Hh0 -> Hdm Ht. rewrite Ht, Hdm.
  destruct (Damper.dampedMemberExpirationTimer d) as [he|].
  - intros h'. rewrite taskOf_clearTimeout.
    destruct (Nat.eqb_spec h' h0) as [->|Hne]; [|apply Hexp].
    split; [discriminate|]. intros E. subst he.
    exfalso. apply Hh0. now apply Hexp.
  - destruct Hexp as [Hempty Hnone]. split; auto.
    intros h. rewrite taskOf_clearTimeout.
    destruct (Nat.eqb h h0); [discriminate | apply Hnone].
Qed.

Lemma sound_schedule d : sound d -> sound (Damper.schedule config d).
Proof.
  intros Hs. unfold Damper.schedule.
  destruct (Damper.isDampTimerEnabled d) eqn:Een; simpl; [|exact Hs].
  destruct Hs as (Hwf1 & Hwf2 & Hdis & Htm & [Hflag Hhandle] & Hexp).
  split_sound; auto.
  - now apply timersOk_setTimeout.
  - unfold Damper._getFlapperCount in *. simpl. congruence.
  - cbn. split; [reflexivity|]. split; [lia|].
    change (taskOf (Timers.nextHandle (Damper.timers d))
              (snd (Timers.setTimeout Timers.DampTimerTask
                      (dampTimerInterval config) (Damper.timers d)))
            <> Some Timers.ExpirationTimerTask).
    rewrite taskOf_setTimeout, Nat.eqb_refl by assumption. discriminate.
  - eapply expirationOk_new_damp_task; eauto. reflexivity.
Qed.

(** Only the flapper set changes. *)
Lemma sound_flappers fl' d :
  sound d ->
  JsObject.wf fl' ->
  (forall a, In a (JsObject.keys fl') ->
             In a (JsObject.keys (Damper.dampedMembers d)) -> False) ->
  Damper.isDampTimerEnabled d
    = negb (Z.of_nat (List.length (JsObject.keys fl')) =? 0) ->
  sound (Damper.mk fl' (Damper.dampTimer d) (Damper.isDampTimerEnabled d)
           (Damper.dampedMembers d) (Damper.dampedMemberExpirationTimer d)
           (Damper.timers d) (Damper.madeDamped d)).
Proof.
  intros Hs Hwf Hd Hf. open_sound Hs. sound_goals; auto.
Qed.

(** The flapper set changes and the damp timer is armed. *)
Lemma sound_armed fl' delay d :
  sound d ->
  JsObject.wf fl' ->
  (forall a, In a (JsObject.keys fl') ->
             In a (JsObject.keys (Damper.dampedMembers d)) -> False) ->
  JsObject.keys fl' <> [] ->
  sound (Damper.mk fl'
           (Some (Timers.nextHandle (Damper.timers d))) true
           (Damper.dampedMembers d) (Damper.dampedMemberExpirationTimer d)
           (snd (Timers.setTimeout Timers.DampTimerTask delay
                                   (Damper.timers d)))
           (Damper.madeDamped d)).
Proof.
  intros Hs Hwf Hd Hne. open_sound Hs. sound_goals; auto.
  - now apply timersOk_setTimeout.
  - destruct (JsObject.keys fl'); [congruence | reflexivity].
  - split; [reflexivity|]. split; [rewrite nextHandle_setTimeout; lia|].
    rewrite taskOf_setTimeout, Nat.eqb_refl by assumption. discriminate.
  - eapply expirationOk_new_damp_task; eauto; reflexivity.
Qed.

(** The flapper set empties and the damp timer is stopped. *)
Lemma sound_stopped fl' d :
  sound d ->
  JsObject.keys fl' = [] ->
  sound (Damper.mk fl' None false
           (Damper.dampedMembers d) (Damper.dampedMemberExpirationTimer d)
           (Timers.clearTimeout (Damper.dampTimer d) (Damper.timers d))
           (Damper.madeDamped d)).
Proof.
  intros Hs Hnil. open_sound Hs. sound_goals; auto.
  - unfold JsObject.wf. rewrite Hnil. constructor.
  - intros a Ha. rewrite Hnil in Ha. destruct Ha.
  - now apply timersOk_clearTimeout.
  - now rewrite Hnil.
  - destruct (Damper.dampTimer d) as [h0|] eqn:Edt.
    + destruct Hhandle as (_ & _ & Hnot).
      eapply expirationOk_clear; eauto.
    + unfold expirationOk in *. fields. exact Hexp.
Qed.

Lemma addFlapper_cases f d :
  Damper.addFlapper config f d = d \/
  (~ In (Damper.address f) (JsObject.keys (Damper.flappers d)) /\
   ~ In (Damper.address f) (JsObject.keys (Damper.dampedMembers d)) /\
   let fl' := JsObject.set (Damper.address f) f (Damper.flappers d) in
   ((Damper.isDampTimerEnabled d = false /\
     JsObject.keys (Damper.flappers d) = [] /\
     Damper.addFlapper config f d =
       Damper.mk fl' (Some (Timers.nextHandle (Damper.timers d))) true
         (Damper.dampedMembers d) (Damper.dampedMemberExpirationTimer d)
         (snd (Timers.setTimeout Timers.DampTimerTask
                 (dampTimerInterval config) (Damper.timers d)))
         (Damper.madeDamped d))
    \/
    ((Damper.isDampTimerEnabled d = true \/
      JsObject.keys (Damper.flappers d) <> []) /\
     Damper.addFlapper config f d =
       Damper.mk fl' (Damper.dampTimer d) (Damper.isDampTimerEnabled d)
         (Damper.dampedMembers d) (Damper.dampedMemberExpirationTimer d)
         (Damper.timers d) (Damper.madeDamped d)))).
Proof.
  unfold Damper.addFlapper.
  destruct (JsObject.has _ (Damper.dampedMembers d)) eqn:Ed; [now left|].
  destruct (JsObject.has _ (Damper.flappers d)) eqn:Ef; [now left|].
  right.
  assert (~ In (Damper.address f) (JsObject.keys (Damper.flappers d)))
    as Hf by (rewrite <- has_true_iff; congruence).
  assert (~ In (Damper.address f) (JsObject.keys (Damper.dampedMembers d)))
    as Hd by (rewrite <- has_true_iff; congruence).
  split; [exact Hf|]. split; [exact Hd|]. cbv zeta.
  unfold Damper._getFlapperCount. fields.
  rewrite keys_set_absent, length_app by assumption. simpl.
  destruct (JsObject.keys (Damper.flappers d)) as [|k ks] eqn:Ek.
  - simpl. unfold Damper._startDampTimer, Damper.schedule. fields.
    destruct (Damper.isDampTimerEnabled d) eqn:Een.
    + right. split; [now left|]. reflexivity.
    + left. repeat split.
  - right. split; [right; discriminate|].
    replace (Z.of_nat (List.length (k :: ks) + 1) =? 1) with false
      by (symmetry; apply Z.eqb_neq; simpl; lia).
    reflexivity.
Qed.

Lemma sound_addFlapper f d :
  sound d -> sound (Damper.addFlapper config f d).
Proof.
  intros Hs.
  destruct (addFlapper_cases f d)
    as [->|(Hf & Hd & [(Een & Hnil & ->)|(Hor & ->)])]; auto.
  - apply sound_armed; auto.
    + apply wf_set, Hs.
    + intros a Ha Ha'. apply in_keys_set in Ha. destruct Ha as [->|Ha]; auto.
      destruct Hs as (_ & _ & Hdis & _). eauto.
    + rewrite keys_set_absent by assumption.
      intros E. apply app_eq_nil in E. destruct E; discriminate.
  - apply sound_flappers; auto.
    + apply wf_set, Hs.
    + intros a Ha Ha'. apply in_keys_set in Ha. destruct Ha as [->|Ha]; auto.
      destruct Hs as (_ & _ & Hdis & _). eauto.
    + rewrite keys_set_absent, length_app by assumption. simpl.
      destruct Hs as (_ & _ & _ & _ & [Hflag _] & _).
      unfold Damper._getFlapperCount in Hflag.
      replace (Z.of_nat (List.length (JsObject.keys (Damper.flappers d)) + 1)
               =? 0) with false by (symmetry; apply Z.eqb_neq; lia).
      simpl. destruct Hor as [E|Hne]; [exact E|].
      rewrite Hflag.
      destruct (JsObject.keys (Damper.flappers d)); [congruence|reflexivity].
Qed.

Lemma removeFlapper_cases x d :
  Damper.removeFlapper x d = d \/
  (In (Damper.addressOf x) (JsObject.keys (Damper.flappers d)) /\
   let fl' := JsObject.del (Damper.addressOf x) (Damper.flappers d) in
   ((JsObject.keys fl' = [] /\ Damper.isDampTimerEnabled d = true /\
     Damper.removeFlapper x d =
       Damper.mk fl' None false
         (Damper.dampedMembers d) (Damper.dampedMemberExpirationTimer d)
         (Timers.clearTimeout (Damper.dampTimer d) (Damper.timers d))
         (Damper.madeDamped d))
    \/
    ((JsObject.keys fl' <> [] \/ Damper.isDampTimerEnabled d = false) /\
     Damper.removeFlapper x d =
       Damper.mk fl' (Damper.dampTimer d) (Damper.isDampTimerEnabled d)
         (Damper.dampedMembers d) (Damper.dampedMemberExpirationTimer d)
         (Damper.timers d) (Damper.madeDamped d)))).
Proof.
  unfold Damper.removeFlapper.
  destruct (JsObject.has _ (Damper.flappers d)) eqn:Ef; [|now left].
  right. split; [now apply has_true_iff|]. cbv zeta. simpl negb. cbv iota.
  unfold Damper._getFlapperCount. fields.
  destruct (JsObject.keys (JsObject.del _ (Damper.flappers d)))
    as [|k ks] eqn:Ek.
  - simpl. unfold Damper._stopDampTimer. fields.
    destruct (Damper.isDampTimerEnabled d) eqn:Een; simpl.
    + left. repeat split.
    + right. split; [now right | reflexivity].
  - right. split; [left; discriminate|].
    replace (Z.of_nat (List.length (k :: ks)) =? 0) with false
      by (symmetry; apply Z.eqb_neq; simpl; lia).
    reflexivity.
Qed.

Lemma sound_removeFlapper x d :
  sound d -> sound (Damper.removeFlapper x d).
Proof.
  intros Hs.
  destruct (removeFlapper_cases x d)
    as [->|(Hin & [(Hnil & Een & ->)|(Hor & ->)])]; auto.
  - now apply sound_stopped.
  - assert (Damper.isDampTimerEnabled d = true) as Een.
    { destruct Hs as (_ & _ & _ & _ & [Hflag _] & _).
      unfold Damper._getFlapperCount in Hflag. rewrite Hflag.
      destruct (JsObject.keys (Damper.flappers d)); [destruct Hin|].
      reflexivity. }
    apply sound_flappers; auto.
    + apply wf_del, Hs.
    + intros a Ha Ha'. apply in_keys_del in Ha.
      destruct Hs as (_ & _ & Hdis & _). destruct Ha; eauto.
    + rewrite Een. destruct Hor as [Hne|E]; [|congruence].
      destruct (JsObject.keys (JsObject.del _ (Damper.flappers d)));
        [congruence | reflexivity].
Qed.

(** The damped set shrinks, or only [madeDamped] changes. *)
Lemma sound_shrink d d' :
  sound d ->
  Damper.flappers d' = Damper.flappers d ->
  Damper.dampTimer d' = Damper.dampTimer d ->
  Damper.isDampTimerEnabled d' = Damper.isDampTimerEnabled d ->
  Damper.dampedMemberExpirationTimer d' =
    Damper.dampedMemberExpirationTimer d ->
  Damper.timers d' = Damper.timers d ->
  JsObject.wf (Damper.dampedMembers d') ->
  (forall k, In k (JsObject.keys (Damper.dampedMembers d')) ->
             In k (JsObject.keys (Damper.dampedMembers d))) ->
  sound d'.
Proof.
  intros Hs Efl Edt Een Eet Etm Hwf Hsub. open_sound Hs.
  sound_goals; rewrite ?Efl, ?Edt, ?Een, ?Etm; auto.
  - intros a Ha Ha'. eauto.
  - unfold expirationOk in *. rewrite Eet, Etm.
    destruct (Damper.dampedMemberExpirationTimer d); auto.
    destruct Hexp as [Hempty Hnone]. split; auto.
    rewrite Hempty in Hsub.
    destruct (Damper.dampedMembers d') as [|[k v] o]; auto.
    destruct (Hsub k (or_introl eq_refl)).
Qed.

(** An entry is set in the damped set, and the expiration timer is
    armed if it was not. *)
Lemma sound_damped a e d :
  sound d ->
  ~ In a (JsObject.keys (Damper.flappers d)) ->
  sound
    (match Damper.dampedMemberExpirationTimer d with
     | None =>
         Damper.scheduleExpiration config
           (Damper.mk (Damper.flappers d) (Damper.dampTimer d)
              (Damper.isDampTimerEnabled d)
              (JsObject.set a e (Damper.dampedMembers d))
              (Damper.dampedMemberExpirationTimer d)
              (Damper.timers d) (Damper.madeDamped d))
     | Some _ =>
         Damper.mk (Damper.flappers d) (Damper.dampTimer d)
           (Damper.isDampTimerEnabled d)
           (JsObject.set a e (Damper.dampedMembers d))
           (Damper.dampedMemberExpirationTimer d)
           (Damper.timers d) (Damper.madeDamped d)
     end).
Proof.
  intros Hs Hout. open_sound Hs.
  assert (forall b, In b (JsObject.keys (Damper.flappers d)) ->
            In b (JsObject.keys (JsObject.set a e (Damper.dampedMembers d)))
            -> False) as Hdis'.
  { intros b Hb Hb'. apply in_keys_set in Hb'.
    destruct Hb' as [->|Hb']; eauto. }
  unfold expirationOk in Hexp.
  destruct (Damper.dampedMemberExpirationTimer d) as [he|] eqn:Eet.
  - sound_goals; auto using wf_set;
      unfold expirationOk; fields; rewrite ?Eet; auto.
  - unfold Damper.scheduleExpiration. fields.
    change (sound
      (Damper.mk (Damper.flappers d) (Damper.dampTimer d)
         (Damper.isDampTimerEnabled d)
         (JsObject.set a e (Damper.dampedMembers d))
         (Some (Timers.nextHandle (Damper.timers d)))
         (snd (Timers.setTimeout Timers.ExpirationTimerTask
                 (dampedMemberExpirationInterval config) (Damper.timers d)))
         (Damper.madeDamped d))).
    destruct Hexp as [_ Hnone].
    sound_goals; auto using wf_set, timersOk_setTimeout.
    + destruct (Damper.dampTimer d) as [h0|]; auto.
      destruct Hhandle as (H1 & H2 & H3). split; [exact H1|].
      split; [rewrite nextHandle_setTimeout; lia|].
      rewrite taskOf_setTimeout by assumption.
      destruct (Nat.eqb_spec h0 (Timers.nextHandle (Damper.timers d)));
        [lia | exact H3].
    + unfold expirationOk. fields. intros h'.
      rewrite taskOf_setTimeout by assumption.
      destruct (Nat.eqb_spec h' (Timers.nextHandle (Damper.timers d)))
        as [->|Hne]; [tauto|].
      split; [intros H; now apply Hnone in H | congruence].
Qed.

Lemma sound__dampMember a now d :
  sound d -> sound (Damper._dampMember config a now d).
Proof.
  intros Hs. unfold Damper._dampMember.
  set (d1 := Damper.mk (Damper.flappers d) (Damper.dampTimer d)
               (Damper.isDampTimerEnabled d) (Damper.dampedMembers d)
               (Damper.dampedMemberExpirationTimer d) (Damper.timers d)
               (Damper.madeDamped d ++ [a])).
  assert (sound d1) as Hs1.
  { apply (sound_shrink d d1); auto. apply Hs. }
  pose proof (sound_removeFlapper (Damper.OfAddress a) d1 Hs1) as Hs2.
  destruct (removeFlapper_sets (Damper.OfAddress a) d1) as (_ & Hfl & _).
  simpl Damper.addressOf in Hfl.
  set (d2 := Damper.removeFlapper (Damper.OfAddress a) d1) in *.
  fields.
  apply (sound_damped a (Damper.mkDamping now) d2 Hs2).
  rewrite Hfl, in_keys_del. tauto.
Qed.

Lemma sound_dampAll now ms : forall i d,
  sound d -> sound (dampAll config now i ms d).
Proof.
  induction ms as [|a ms IH]; intros i d Hs; simpl; auto.
  apply IH, sound__dampMember, Hs.
Qed.

Lemma sound_expire now d :
  sound d -> sound (fst (Damper._expireDampedMembers config now d)).
Proof.
  intros Hs.
  destruct (_expireDampedMembers_fields config now d)
    as (Hfl & Hdm & Het & Htm & Hdt & Hen).
  cbv zeta in *.
  apply (sound_shrink d); auto; rewrite Hdm.
  - apply expireScan_wf, Hs.
  - intros k. apply expireScan_keys.
Qed.

Lemma sound_fired_damp h d :
  sound d ->
  taskOf h (Damper.timers d) = Some Timers.DampTimerTask ->
  sound (fired h d).
Proof.
  intros Hs Htask. open_sound Hs. unfold fired.
  sound_goals; auto using timersOk_clearTimeout.
  - destruct (Damper.dampTimer d) as [h0|]; auto.
    destruct Hhandle as (H1 & H2 & H3). split; [exact H1|].
    split; [exact H2|]. rewrite taskOf_clearTimeout.
    destruct (Nat.eqb h0 h); [discriminate | exact H3].
  - eapply expirationOk_clear; eauto; [|reflexivity]. congruence.
Qed.

Lemma sound_expiration_timeout h now d :
  sound d ->
  taskOf h (Damper.timers d) = Some Timers.ExpirationTimerTask ->
  sound (onExpirationTimeout config now (fired h d)).
Proof.
  intros Hs Htask. unfold onExpirationTimeout.
  destruct (_expireDampedMembers_fields config now (fired h d))
    as (Hfl & Hdm & Het & Htm' & Hdt & Hen).
  cbv zeta in *.
  set (d2 := fst (Damper._expireDampedMembers config now (fired h d))) in *.
  unfold fired in Hfl, Hdm, Het, Htm', Hdt, Hen. fields.
  open_sound Hs.
  unfold Damper.scheduleExpiration.
  change (sound
    (Damper.mk (Damper.flappers d2) (Damper.dampTimer d2)
       (Damper.isDampTimerEnabled d2) (Damper.dampedMembers d2)
       (Some (Timers.nextHandle (Damper.timers d2)))
       (snd (Timers.setTimeout Timers.ExpirationTimerTask
               (dampedMemberExpirationInterval config) (Damper.timers d2)))
       (Damper.madeDamped d2))).
  assert (timersOk (Damper.timers d2)) as Htm2
    by (rewrite Htm'; now apply timersOk_clearTimeout).
  assert (forall h', taskOf h' (Damper.timers d)
                     = Some Timers.ExpirationTimerTask -> h' = h) as Honly.
  { unfold expirationOk in Hexp.
    destruct (Damper.dampedMemberExpirationTimer d) as [he|].
    - intros h' H'. apply Hexp in H'. apply Hexp in Htask. congruence.
    - destruct Hexp as [_ Hnone]. now apply Hnone in Htask. }
  sound_goals; rewrite ?Hfl, ?Hdt, ?Hen; auto.
  - rewrite Hdm. apply expireScan_wf, Hwf2.
  - intros a Ha Ha'. rewrite Hdm in Ha'. apply expireScan_keys in Ha'. eauto.
  - now apply timersOk_setTimeout.
  - destruct (Damper.dampTimer d) as [h0|]; auto.
    destruct Hhandle as (H1 & H2 & H3). split; [exact H1|].
    rewrite nextHandle_setTimeout, taskOf_setTimeout by assumption.
    rewrite Htm', nextHandle_clearTimeout, taskOf_clearTimeout.
    split; [lia|].
    destruct (Nat.eqb_spec h0 (Timers.nextHandle (Damper.timers d)));
      [lia|].
    destruct (Nat.eqb h0 h); [discriminate | exact H3].
  - unfold expirationOk. fields. intros h'.
    rewrite taskOf_setTimeout by assumption.
    destruct (Nat.eqb_spec h' (Timers.nextHandle (Damper.timers d2)))
      as [->|Hne]; [tauto|].
    rewrite Htm', taskOf_clearTimeout.
    split; [|congruence].
    destruct (Nat.eqb_spec h' h) as [->|Hne']; [discriminate|].
    intros H'. apply Honly in H'. contradiction.
Qed.

End NodeSound.

(** ** The damper on the event loop: runs *)

Section NodeRuns.
Import Node.
Variables (config : Config) (dampedMax : QArith_base.Q).

Local Abbreviation size l := (Z.of_nat (List.length l)).

Lemma initiateSubprotocol_cases answers w :
  (initiateSubprotocol config dampedMax answers w
     = emit DampedLimitExceededEvent w /\
   lessThan (getDampedPercentage answers) dampedMax = false)
  \/
  (initiateSubprotocol config dampedMax answers w
     = emit DampReqUnsatisfiedEvent w /\
   lessThan (getDampedPercentage answers) dampedMax = true /\
   Z.min (dampReqRVal config)
         (size (getRandomPingableMembers answers (dampReqNVal config)
                  (Damper._getFlapperAddrs (damper w)))) = 0)
  \/
  (exists f,
     initiateSubprotocol config dampedMax answers w
       = mk (damper w) (emitted w) (flights w ++ [f]) /\
     lessThan (getDampedPercentage answers) dampedMax = true /\
     flapperAddrs f = Damper._getFlapperAddrs (damper w) /\
     dampReqMembers f =
       getRandomPingableMembers answers (dampReqNVal config)
                                (flapperAddrs f) /\
     rVal f = Z.min (dampReqRVal config) (size (dampReqMembers f)) /\
     rVal f <> 0 /\
     closure f =
       Fanout._fanoutDampReqs (flapperAddrs f) (dampReqMembers f) (rVal f)).
Proof.
  unfold initiateSubprotocol, _validateDampedClusterLimits.
  destruct (lessThan (getDampedPercentage answers) dampedMax) eqn:Ecap;
    simpl; [|now left].
  right.
  destruct (Z.eqb_spec
              (Z.min (dampReqRVal config)
                 (size (getRandomPingableMembers answers (dampReqNVal config)
                          (Damper._getFlapperAddrs (damper w))))) 0)
    as [E|N].
  - left. auto.
  - right. eexists. split; [reflexivity|]. simpl. auto 10.
Qed.

(** What every fan-out that the damper has started satisfies. *)
Lemma flightOk_start fl ms r :
  flightOk (mkFlight fl ms r (Fanout._fanoutDampReqs fl ms r)).
Proof. exists []. reflexivity. Qed.

Lemma flightOk_reply f addr r :
  flightOk f ->
  flightOk (mkFlight (flapperAddrs f) (dampReqMembers f) (rVal f)
              (Fanout.onDampReq (flapperAddrs f) (rVal f) addr r
                                (closure f))).
Proof.
  intros [replies H]. exists (replies ++ [(addr, r)]). simpl.
  now rewrite deliver_snoc, <- H.
Qed.

Lemma setClosure_Forall (P : Flight -> Prop) i c fs f :
  nth_error fs i = Some f ->
  Forall P fs ->
  P (mkFlight (flapperAddrs f) (dampReqMembers f) (rVal f) c) ->
  Forall P (setClosure i c fs).
Proof.
  intros Hnth Hall Hp. unfold setClosure. rewrite Hnth.
  set (g := mkFlight (flapperAddrs f) (dampReqMembers f) (rVal f) c) in *.
  clearbody g. revert fs Hnth Hall.
  induction i as [|i IH]; intros [|f0 fs] Hnth Hall;
    try discriminate; inversion Hall; subst.
  - simpl. now constructor.
  - change (Forall P (f0 :: (firstn i fs ++ g :: skipn (S i) fs))).
    constructor; auto.
Qed.

Lemma sound_onDampReqs now r inv w :
  sound (damper w) -> sound (damper (onDampReqs config now r inv w)).
Proof.
  intros Hs. destruct inv as [res|err]; simpl.
  - destruct (_ =? 0); [exact Hs|]. simpl.
    apply sound_schedule, sound_dampAll, Hs.
  - apply sound_schedule, Hs.
Qed.

Lemma flights_onDampReqs now r inv w :
  flights (onDampReqs config now r inv w) = flights w.
Proof.
  destruct inv as [res|err]; simpl; auto.
  destruct (_ =? 0); auto.
Qed.

Lemma fold_onDampReqs now r invs : forall w,
  sound (damper w) ->
  sound (damper (fold_left (fun w inv => onDampReqs config now r inv w)
                           invs w)) /\
  flights (fold_left (fun w inv => onDampReqs config now r inv w) invs w)
  = flights w.
Proof.
  induction invs as [|inv invs IH]; intros w Hs; simpl; auto.
  destruct (IH (onDampReqs config now r inv w)
               (sound_onDampReqs now r inv w Hs)) as [H1 H2].
  split; [exact H1|]. now rewrite H2, flights_onDampReqs.
Qed.

(** The condition of a flight that does not change: its [rVal] is the
    configured one capped by the number of members asked, and is not
    zero. *)
Lemma step_keeps w s :
  sound (damper w) /\
  Forall (fun f =>
            flightOk f /\
            rVal f = Z.min (dampReqRVal config) (size (dampReqMembers f)) /\
            rVal f <> 0) (flights w) ->
  sound (damper (step config dampedMax w s)) /\
  Forall (fun f =>
            flightOk f /\
            rVal f = Z.min (dampReqRVal config) (size (dampReqMembers f)) /\
            rVal f <> 0) (flights (step config dampedMax w s)).
Proof.
  intros [Hs Hfl]. destruct s as [f|x|h answers now|i addr r now]; simpl.
  - split; [now apply sound_addFlapper | exact Hfl].
  - split; [now apply sound_removeFlapper | exact Hfl].
  - unfold timeout.
    destruct (taskOf h (Damper.timers (damper w))) as [[|]|] eqn:Etask;
      [| |auto].
    + pose proof (sound_fired_damp h _ Hs Etask) as Hs'.
      destruct (initiateSubprotocol_cases answers (onDamper (fired h) w))
        as [[-> _]|[[-> _]|(f & -> & _ & _ & _ & Hr & Hne & Hc)]];
        simpl; auto.
      split; [exact Hs'|]. apply Forall_app. split; [exact Hfl|].
      constructor; [|constructor]. split; [|auto].
      destruct f as [fa ms r c]. simpl in *. subst c.
      apply flightOk_start.
    + simpl. split; [|exact Hfl].
      now apply sound_expiration_timeout.
  - unfold reply.
    destruct (nth_error (flights w) i) as [f|] eqn:Enth; [|auto].
    match goal with |- context [fold_left ?g ?invs ?w0] =>
      destruct (fold_onDampReqs now (rVal f) invs w0 Hs) as [H1 H2] end.
    split; [exact H1|]. rewrite H2. simpl.
    eapply setClosure_Forall; eauto. simpl.
    pose proof (proj1 (Forall_forall _ _) Hfl f (nth_error_In _ _ Enth))
      as (Hok & Hr & Hne).
    split; [now apply flightOk_reply | auto].
Qed.

Lemma sound_new : sound Damper.new.
Proof.
  split_sound.
  - constructor.
  - constructor.
  - intros a [].
  - apply timersOk_init.
  - reflexivity.
  - reflexivity.
  - split; [reflexivity | intros h; discriminate].
Qed.

Lemma node_run_snoc steps s w :
  run config dampedMax (steps ++ [s]) w =
  step config dampedMax (run config dampedMax steps w) s.
Proof. unfold run. now rewrite fold_left_app. Qed.

Lemma run_keeps steps :
  sound (damper (run config dampedMax steps start)) /\
  Forall (fun f =>
            flightOk f /\
            rVal f = Z.min (dampReqRVal config) (size (dampReqMembers f)) /\
            rVal f <> 0)
         (flights (run config dampedMax steps start)).
Proof.
  induction steps as [|s steps IH] using rev_ind.
  - split; [apply sound_new | constructor].
  - rewrite node_run_snoc. now apply step_keeps.
Qed.

End NodeRuns.

(** ** The damper on the event loop: what holds after every run *)

Section NodeClaims.
Import Node.
Variables (config : Config) (dampedMax : QArith_base.Q).

Local Abbreviation size l := (Z.of_nat (List.length l)).
Local Abbreviation reached steps := (run config dampedMax steps start).

Lemma armed_schedule d :
  Damper.dampedMemberExpirationTimer (Damper.schedule config d) =
  Damper.dampedMemberExpirationTimer d.
Proof. unfold Damper.schedule. now destruct (Damper.isDampTimerEnabled d). Qed.

Lemma armed_dampAll now ms : forall i d,
  Damper.dampedMemberExpirationTimer d <> None ->
  Damper.dampedMemberExpirationTimer (dampAll config now i ms d) <> None.
Proof.
  induction ms as [|a ms IH]; intros i d H; simpl; auto.
  apply IH, _dampMember_arms.
Qed.

Lemma armed_onDampReqs now r inv w :
  Damper.dampedMemberExpirationTimer (damper w) <> None ->
  Damper.dampedMemberExpirationTimer
    (damper (onDampReqs config now r inv w)) <> None.
Proof.
  intros H. destruct inv as [res|err]; simpl.
  - destruct (_ =? 0); auto. simpl.
    rewrite armed_schedule. now apply armed_dampAll.
  - now rewrite armed_schedule.
Qed.

Lemma armed_step w s :
  Damper.dampedMemberExpirationTimer (damper w) <> None ->
  Damper.dampedMemberExpirationTimer (damper (step config dampedMax w s))
  <> None.
Proof.
  intros H. destruct s as [f|x|h answers now|i addr r now]; simpl.
  - destruct (addFlapper_cases config f (damper w))
      as [->|(_ & _ & [(_ & _ & ->)|(_ & ->)])]; auto.
  - destruct (removeFlapper_sets x (damper w)) as (_ & _ & ->). exact H.
  - unfold timeout.
    destruct (taskOf h (Damper.timers (damper w))) as [[|]|]; auto.
    + destruct (initiateSubprotocol_cases config dampedMax answers
                  (onDamper (fired h) w))
        as [[-> _]|[[-> _]|(f & -> & _)]]; simpl; auto.
    + simpl. discriminate.
  - unfold reply. destruct (nth_error (flights w) i) as [f|]; auto.
    match goal with |- context [fold_left ?g ?invs ?w0] =>
      assert (Damper.dampedMemberExpirationTimer (damper w0) <> None)
        as H0 by exact H;
      generalize dependent w0; generalize invs end.
    intros invs. induction invs as [|inv invs IH]; intros w0 H0; simpl; auto.
    apply IH, armed_onDampReqs, H0.
Qed.

Lemma armed_run more : forall w,
  Damper.dampedMemberExpirationTimer (damper w) <> None ->
  Damper.dampedMemberExpirationTimer
    (damper (run config dampedMax more w)) <> None.
Proof.
  induction more as [|s more IH]; intros w H; simpl; auto.
  apply IH, armed_step, H.
Qed.

(** X13.  On the event loop too (flappers added and removed, timers
    firing, rounds initiated, replies arriving in any order and to any
    fan-out) no address is ever both a flapper and damped. *)
Theorem event_loop_keeps_sets_disjoint (steps : list Step) :
  Damper.disjoint (damper (reached steps)).
Proof. apply (run_keeps config dampedMax steps). Qed.

(** X14.  After every run the damp timer is enabled exactly when there
    are flappers, and a timer handle is stored exactly when it is
    enabled. *)
Theorem damp_timer_enabled_iff_flappers (steps : list Step) :
  let d := damper (reached steps) in
  (Damper.isDampTimerEnabled d = true <->
   JsObject.keys (Damper.flappers d) <> []) /\
  (Damper.dampTimer d <> None <-> Damper.isDampTimerEnabled d = true).
Proof.
  intros d.
  destruct (run_keeps config dampedMax steps)
    as [(_ & _ & _ & _ & [Hflag Hhandle] & _) _].
  fold d in Hflag, Hhandle. unfold Damper._getFlapperCount in Hflag.
  split.
  - rewrite Hflag.
    destruct (JsObject.keys (Damper.flappers d)); simpl;
      split; congruence.
  - destruct (Damper.dampTimer d) as [h|].
    + split; [tauto | discriminate].
    + rewrite Hhandle. split; congruence.
Qed.

(** X15.  After every run: while any member is damped the expiration
    timer is armed; when it is armed, exactly one expiration task is
    scheduled, under the stored handle, and before it is armed there is
    none; and once armed it stays armed whatever happens next, also
    when the damped set has become empty. *)
Theorem expiration_timer_one_task_forever (steps : list Step) :
  let d := damper (reached steps) in
  (JsObject.keys (Damper.dampedMembers d) <> [] ->
   Damper.dampedMemberExpirationTimer d <> None) /\
  (forall h, Damper.dampedMemberExpirationTimer d = Some h ->
     forall h', taskOf h' (Damper.timers d)
                = Some Timers.ExpirationTimerTask <-> h' = h) /\
  (Damper.dampedMemberExpirationTimer d = None ->
   forall h', taskOf h' (Damper.timers d)
              <> Some Timers.ExpirationTimerTask) /\
  (Damper.dampedMemberExpirationTimer d <> None ->
   forall more,
     Damper.dampedMemberExpirationTimer (damper (reached (steps ++ more)))
     <> None).
Proof.
  intros d.
  destruct (run_keeps config dampedMax steps)
    as [(_ & _ & _ & _ & _ & Hexp) _].
  fold d in Hexp. unfold expirationOk in Hexp.
  repeat split.
  - destruct (Damper.dampedMemberExpirationTimer d); [discriminate|].
    destruct Hexp as [-> _]. intros H _. now apply H.
  - destruct (Damper.dampedMemberExpirationTimer d) as [he|];
      [|discriminate].
    assert (he = h) as <- by congruence. apply Hexp.
  - destruct (Damper.dampedMemberExpirationTimer d) as [he|];
      [|discriminate].
    assert (he = h) as <- by congruence. apply Hexp.
  - intros E. rewrite E in Hexp. apply Hexp.
  - intros H more. unfold run. rewrite fold_left_app.
    now apply armed_run.
Qed.

(** X16.  Every fan-out that the damper has started has an [rVal] that
    is the configured r-val capped by the number of members asked and
    is not zero, so with a configured r-val of at least 1 it meets
    [1 <= rVal <= n]; and, whatever replies have reached it, its
    continuation has been called at most once. *)
Theorem started_fanouts_are_well_formed (steps : list Step) f :
  In f (flights (reached steps)) ->
  rVal f = Z.min (dampReqRVal config) (size (dampReqMembers f)) /\
  rVal f <> 0 /\
  (1 <= dampReqRVal config -> 1 <= rVal f <= size (dampReqMembers f)) /\
  (List.length (Fanout.invocations (closure f)) <= 1)%nat.
Proof.
  intros Hin.
  destruct (run_keeps config dampedMax steps) as [_ Hall].
  rewrite Forall_forall in Hall.
  destruct (Hall f Hin) as ([replies Hc] & Hr & Hne).
  repeat split; auto; try lia.
  rewrite Hc. apply invocations_at_most_one.
Qed.

End NodeClaims.

(** ** Rounds of the subprotocol *)

Section Rounds.
Import Node.
Variables (config : Config) (dampedMax : QArith_base.Q).

Local Abbreviation size l := (Z.of_nat (List.length l)).

Lemma schedule_sets d :
  Damper.flappers (Damper.schedule config d) = Damper.flappers d /\
  Damper.dampedMembers (Damper.schedule config d) = Damper.dampedMembers d /\
  Damper.madeDamped (Damper.schedule config d) = Damper.madeDamped d.
Proof.
  unfold Damper.schedule. destruct (Damper.isDampTimerEnabled d); auto.
Qed.

Lemma _dampMember_madeDamped a now d :
  Damper.madeDamped (Damper._dampMember config a now d) =
  Damper.madeDamped d ++ [a].
Proof.
  unfold Damper._dampMember.
  match goal with |- context [Damper.removeFlapper ?x ?d1] =>
    destruct (removeFlapper_cases x d1)
      as [->|(_ & [(_ & _ & ->)|(_ & ->)])] end;
    fields; destruct (Damper.dampedMemberExpirationTimer d); reflexivity.
Qed.

Lemma dampAll_sets now ms : forall i d,
  (forall b, In b (JsObject.keys (Damper.flappers (dampAll config now i ms d)))
             <-> In b (JsObject.keys (Damper.flappers d)) /\ ~ In b ms) /\
  (forall b,
      In b (JsObject.keys (Damper.dampedMembers (dampAll config now i ms d)))
      <-> In b ms \/ In b (JsObject.keys (Damper.dampedMembers d))) /\
  Damper.madeDamped (dampAll config now i ms d) = Damper.madeDamped d ++ ms.
Proof.
  induction ms as [|a ms IH]; intros i d; simpl.
  - rewrite app_nil_r. repeat split; tauto.
  - destruct (IH (S i) (Damper._dampMember config a (now i) d))
      as (Hfl & Hdm & Hmd).
    destruct (_dampMember_sets config a (now i) d) as [Efl Edm].
    split; [|split].
    + intros b. rewrite Hfl, Efl, in_keys_del. split.
      * intros [[H1 H2] H3].
        split; [exact H2|]. intros [E|E]; [congruence | tauto].
      * intros [H1 H2].
        split; [split; [|exact H1]|]; intros E; apply H2; auto.
    + intros b. rewrite Hdm, Edm, in_keys_set.
      split; [intros [H|[H|H]] | intros [[H|H]|H]]; auto.
    + rewrite Hmd, _dampMember_madeDamped, <- app_assoc. reflexivity.
Qed.

(** X17.  A round whose decision is not empty moves every decided
    address out of the flapper set and into the damped set, leaves the
    other flappers and the other damped members in place, calls
    [makeDamped] once for each decided address, in order, and emits
    one [DampedEvent]. *)
Theorem round_damps_the_decided_members now rVal res w :
  Decision.getMembersToDamp res rVal config <> [] ->
  let membersToDamp := Decision.getMembersToDamp res rVal config in
  let w' := onDampReqs config now rVal (Fanout.Results res) w in
  (forall b, In b (JsObject.keys (Damper.flappers (damper w'))) <->
             In b (JsObject.keys (Damper.flappers (damper w))) /\
             ~ In b membersToDamp) /\
  (forall b, In b (JsObject.keys (Damper.dampedMembers (damper w'))) <->
             In b membersToDamp \/
             In b (JsObject.keys (Damper.dampedMembers (damper w)))) /\
  Damper.madeDamped (damper w') =
    Damper.madeDamped (damper w) ++ membersToDamp /\
  emitted w' = emitted w ++ [DampedEvent] /\
  flights w' = flights w.
Proof.
  intros Hne. cbv zeta. unfold onDampReqs.
  remember (Decision.getMembersToDamp res rVal config) as ms eqn:Ems.
  clear Ems.
  destruct (Z.eqb_spec (size ms) 0) as [E|_].
  { destruct ms; [contradiction | simpl in E; lia]. }
  unfold onDamper, emit. cbn [damper emitted flights].
  destruct (schedule_sets (dampAll config now 0 ms (damper w)))
    as (-> & -> & ->).
  destruct (dampAll_sets now ms 0 (damper w)) as (H1 & H2 & H3).
  auto.
Qed.

(** X18.  On the event loop, a round that damps every flapper leaves
    the damp timer off: the flapper set is empty, the timer is disabled
    and no handle is stored, so the round's own completion does not
    re-arm it. *)
Theorem round_that_damps_all_flappers_stops_the_timer
    (steps : list Step) now rVal res :
  let w := run config dampedMax steps start in
  Decision.getMembersToDamp res rVal config <> [] ->
  (forall b, In b (JsObject.keys (Damper.flappers (damper w))) ->
             In b (Decision.getMembersToDamp res rVal config)) ->
  let d' := damper (onDampReqs config now rVal (Fanout.Results res) w) in
  JsObject.keys (Damper.flappers d') = [] /\
  Damper.isDampTimerEnabled d' = false /\
  Damper.dampTimer d' = None.
Proof.
  intros w Hne Hall d'.
  destruct (round_damps_the_decided_members now rVal res w Hne)
    as (Hfl & _).
  cbv zeta in Hfl. fold d' in Hfl.
  assert (JsObject.keys (Damper.flappers d') = []) as Hnil.
  { destruct (JsObject.keys (Damper.flappers d')) as [|b l]; auto.
    destruct (proj1 (Hfl b) (or_introl eq_refl)) as [H1 H2].
    exfalso. apply H2, Hall, H1. }
  assert (sound d') as Hs.
  { apply sound_onDampReqs. apply (run_keeps config dampedMax steps). }
  destruct Hs as (_ & _ & _ & _ & [Hflag Hhandle] & _).
  unfold Damper._getFlapperCount in Hflag. rewrite Hnil in Hflag.
  simpl in Hflag. repeat split; auto.
  destruct (Damper.dampTimer d'); [|reflexivity].
  destruct Hhandle as [E _]. congruence.
Qed.

(** X19.  A round that is skipped, because the damped share of the
    cluster is not below the maximum or because no member could be
    selected, sends no damp-req and emits the matching event
    ([DampedLimitExceededEvent] when the share is not below the
    maximum, [DampReqUnsatisfiedEvent] otherwise); and since its
    callback is never called, the damp timer is not
    scheduled again: the fired task leaves the queue and nothing is
    put on it, while the timer still counts as enabled. *)
Theorem skipped_round_is_not_rescheduled h answers now w :
  taskOf h (Damper.timers (damper w)) = Some Timers.DampTimerTask ->
  lessThan (getDampedPercentage answers) dampedMax = false \/
  Z.min (dampReqRVal config)
        (size (getRandomPingableMembers answers (dampReqNVal config)
                 (Damper._getFlapperAddrs (damper w)))) = 0 ->
  let w' := timeout config dampedMax h answers now w in
  flights w' = flights w /\
  emitted w' =
    emitted w ++
    [if lessThan (getDampedPercentage answers) dampedMax
     then DampReqUnsatisfiedEvent else DampedLimitExceededEvent] /\
  damper w' = fired h (damper w) /\
  Damper.isDampTimerEnabled (damper w') =
    Damper.isDampTimerEnabled (damper w) /\
  taskOf h (Damper.timers (damper w')) = None /\
  (forall h', taskOf h' (Damper.timers (damper w')) <> None ->
              taskOf h' (Damper.timers (damper w)) <> None).
Proof.
  intros Htask Hskip w'. subst w'. unfold timeout. rewrite Htask.
  assert (taskOf h (Damper.timers (fired h (damper w))) = None) as Hgone.
  { unfold fired. fields. now rewrite taskOf_clearTimeout, Nat.eqb_refl. }
  assert (forall h', taskOf h' (Damper.timers (fired h (damper w))) <> None ->
                     taskOf h' (Damper.timers (damper w)) <> None) as Hold.
  { intros h'. unfold fired. fields. rewrite taskOf_clearTimeout.
    destruct (Nat.eqb h' h); [congruence | auto]. }
  destruct (initiateSubprotocol_cases config dampedMax answers
              (onDamper (fired h) w))
    as [[-> Hcap]|[(-> & Hcap & _)|(f & _ & Hcap & Hfa & Hms & Hr & Hne & _)]];
    try rewrite Hcap; simpl; auto 10.
  exfalso. destruct Hskip as [E|E]; [congruence|].
  apply Hne. rewrite Hr, Hms, Hfa. exact E.
Qed.

Lemma skipn_exact {A} (l l' : list A) : skipn (List.length l) (l ++ l') = l'.
Proof. induction l; simpl; auto. Qed.

(** X20.  A round that reaches its quorum but decides on nobody ends
    without a trace: the reply that completes it changes neither the
    damper (so the damp timer is not scheduled again) nor the events
    emitted. *)
Theorem inconclusive_round_changes_nothing i addr r now w f :
  nth_error (flights w) i = Some f ->
  Fanout.callbackLive (closure f) = true ->
  let c := Fanout.onDampReq (flapperAddrs f) (rVal f) addr r (closure f) in
  rVal f <= size (Fanout.results c) ->
  Decision.getMembersToDamp (Fanout.results c) (rVal f) config = [] ->
  damper (reply config i addr r now w) = damper w /\
  emitted (reply config i addr r now w) = emitted w.
Proof.
  intros Hnth Hlive c Hquorum Hnone. unfold reply. rewrite Hnth.
  fold c.
  pose proof (onDampReq_live (flapperAddrs f) (rVal f) addr r _ Hlive)
    as (_ & _ & _ & _ & Hcases).
  cbv zeta in Hcases. fold c in Hcases.
  destruct Hcases as [(_ & _ & Hi)|[(Hlt & _)|(Hlt & _)]]; try lia.
  rewrite Hi, skipn_exact. simpl. rewrite Hnone. simpl. auto.
Qed.

End Rounds.

(** ** The expiry scan *)

Section ExpiryFurther.
Import Damper.

(** X21.  A tick removes exactly the overdue entries: the entry under
    the [j]-th key, committed at [timestamp e], is gone afterwards if
    the clock read in its iteration shows at least the suppress
    duration, and is still there with the same timestamp otherwise. *)
Theorem expiry_removes_exactly_the_overdue config now d j k e :
  JsObject.wf (dampedMembers d) ->
  nth_error (JsObject.keys (dampedMembers d)) j = Some k ->
  JsObject.get k (dampedMembers d) = Some e ->
  let d' := fst (_expireDampedMembers config now d) in
  (~ In k (JsObject.keys (dampedMembers d')) <->
   dampScoringSuppressDuration config <= now j - timestamp e) /\
  (JsObject.get k (dampedMembers d') = Some e <->
   now j - timestamp e < dampScoringSuppressDuration config).
Proof.
  intros Hwf Hj Hget d'. subst d'.
  destruct (_expireDampedMembers_removes_iff config now d j k e Hwf Hj Hget)
    as [H1 H2].
  split; [|exact H2].
  rewrite in_keys_get, <- H1.
  destruct (JsObject.get k
              (dampedMembers (fst (_expireDampedMembers config now d))))
    as [e'|].
  - split; [|discriminate]. intros H. exfalso. apply H. discriminate.
  - split; [reflexivity|]. intros _ H. now apply H.
Qed.

End ExpiryFurther.

(** ** Instances of the further properties *)

Section FurtherInstances.
Import Decision Fanout Scenario Cases.

Lemma getMembersToDamp_low_score_vetoes_witness :
  In (reportOf observerB 50) oneHigh /\
  scores (reportOf observerB 50) = IsArray [mkScore x 50] /\
  In (mkScore x 50) [mkScore x 50] /\
  50 < dampScoringSuppressLimit config /\
  ~ In x (getMembersToDamp oneHigh 2 config).
Proof.
  assert (In (reportOf observerB 50) oneHigh) as H1
    by (right; left; reflexivity).
  assert (In (mkScore x 50) [mkScore x 50]) as H3 by (left; reflexivity).
  assert (dampScore (mkScore x 50) < dampScoringSuppressLimit config) as H4
    by (simpl; lia).
  refine (conj H1 (conj eq_refl (conj H3 (conj H4 _)))).
  exact (getMembersToDamp_low_score_vetoes oneHigh 2 config
           (reportOf observerB 50) [mkScore x 50] (mkScore x 50)
           H1 eq_refl H3 H4).
Defined.

Lemma getMembersToDamp_antitone_witness :
  2 <= 3 /\
  dampScoringSuppressLimit config <= dampScoringSuppressLimit config /\
  incl (getMembersToDamp unanimous 3 config)
       (getMembersToDamp unanimous 2 config).
Proof.
  assert (2 <= 3) as H1 by lia.
  assert (dampScoringSuppressLimit config <= dampScoringSuppressLimit config)
    as H2 by lia.
  refine (conj H1 (conj H2 _)).
  exact (getMembersToDamp_antitone unanimous 2 3 config config H1 H2).
Defined.


Lemma fanout_nonpositive_rVal_reports_first_reply_witness :
  0 <= 0 /\
  invocations
    (deliver [x] 0 [(observerA, Failed "timeout")]
       (_fanoutDampReqs [x] observers 0))
  = [Results []].
Proof.
  assert (0 <= 0) as H by lia.
  split; [exact H|].
  exact (fanout_nonpositive_rVal_reports_first_reply [x] observers 0
           observerA (Failed "timeout") H).
Defined.

Lemma handleDampReq_names_known_flappers_witness :
  (forall f m, findMemberByAddress f = Some m -> Membership.address m = f) /\
  exists scores,
    Handler.handleDampReq findMemberByAddress
      (Handler.Parsed (Some (IsArray [x; y; x]))) = Handler.Responded scores /\
    map member scores = View.known findMemberByAddress [x; y; x] /\
    (List.length scores <= List.length [x; y; x])%nat.
Proof.
  assert (forall f m, findMemberByAddress f = Some m ->
                      Membership.address m = f) as H.
  { intros f m. unfold findMemberByAddress.
    destruct (String.eqb_spec f x) as [->|_]; [|discriminate].
    intros E. injection E as <-. reflexivity. }
  split; [exact H|].
  exact (handleDampReq_names_known_flappers findMemberByAddress [x; y; x] H).
Defined.

Lemma removeFlapper_idempotent_witness :
  ~ In (Damper.addressOf (Damper.OfAddress x))
       (JsObject.keys (Damper.flappers Damper.new)) /\
  Damper.removeFlapper (Damper.OfAddress x) Damper.new = Damper.new.
Proof.
  assert (~ In (Damper.addressOf (Damper.OfAddress x))
               (JsObject.keys (Damper.flappers Damper.new))) as H
    by (intros []).
  split; [exact H|].
  exact (proj2 (removeFlapper_idempotent (Damper.OfAddress x) Damper.new) H).
Defined.

Lemma addFlapper_then_removeFlapper_witness :
  ~ In (Damper.address flapperX)
       (JsObject.keys (Damper.flappers Damper.new)) /\
  ~ In (Damper.address flapperX)
       (JsObject.keys (Damper.dampedMembers Damper.new)) /\
  Damper.flappers
    (Damper.removeFlapper (Damper.OfAddress (Damper.address flapperX))
       (Damper.addFlapper config flapperX Damper.new))
  = Damper.flappers Damper.new.
Proof.
  assert (~ In (Damper.address flapperX)
               (JsObject.keys (Damper.flappers Damper.new))) as H1
    by (intros []).
  assert (~ In (Damper.address flapperX)
               (JsObject.keys (Damper.dampedMembers Damper.new))) as H2
    by (intros []).
  refine (conj H1 (conj H2 _)).
  exact (proj1 (addFlapper_then_removeFlapper config flapperX Damper.new
                  H1 H2)).
Defined.

Lemma started_fanouts_are_well_formed_witness :
  In asked (Node.flights (Node.run config dampedMax asking Node.start)) /\
  Node.rVal asked <> 0.
Proof.
  assert (In asked
             (Node.flights (Node.run config dampedMax asking Node.start)))
    as H by (left; reflexivity).
  split; [exact H|].
  exact (proj1 (proj2 (started_fanouts_are_well_formed config dampedMax
                         asking asked H))).
Defined.

Lemma round_damps_the_decided_members_witness :
  getMembersToDamp unanimous 2 config <> [] /\
  Node.emitted
    (Node.onDampReqs config clock 2 (Results unanimous)
       (Node.run config dampedMax flapping Node.start))
  = Node.emitted (Node.run config dampedMax flapping Node.start)
    ++ [Node.DampedEvent].
Proof.
  assert (getMembersToDamp unanimous 2 config <> []) as H by discriminate.
  split; [exact H|].
  exact (proj1 (proj2 (proj2 (proj2
           (round_damps_the_decided_members config clock 2 unanimous
              (Node.run config dampedMax flapping Node.start) H))))).
Defined.

Lemma round_that_damps_all_flappers_stops_the_timer_witness :
  getMembersToDamp unanimous 2 config <> [] /\
  (forall b,
      In b (JsObject.keys
              (Damper.flappers
                 (Node.damper (Node.run config dampedMax flapping Node.start))))
      -> In b (getMembersToDamp unanimous 2 config)) /\
  Damper.dampTimer
    (Node.damper
       (Node.onDampReqs config clock 2 (Results unanimous)
          (Node.run config dampedMax flapping Node.start))) = None.
Proof.
  assert (getMembersToDamp unanimous 2 config <> []) as H1 by discriminate.
  assert (forall b,
      In b (JsObject.keys
              (Damper.flappers
                 (Node.damper (Node.run config dampedMax flapping Node.start))))
      -> In b (getMembersToDamp unanimous 2 config)) as H2
    by (intros b Hb; exact Hb).
  refine (conj H1 (conj H2 _)).
  exact (proj2 (proj2
           (round_that_damps_all_flappers_stops_the_timer config dampedMax
              flapping clock 2 unanimous H1 H2))).
Defined.

Lemma skipped_round_is_not_rescheduled_witness :
  Node.taskOf 0
    (Damper.timers
       (Node.damper (Node.run config dampedMax flapping Node.start)))
  = Some Timers.DampTimerTask /\
  Node.lessThan (Node.getDampedPercentage saturated) dampedMax = false /\
  Node.emitted
    (Node.timeout config dampedMax 0 saturated clock
       (Node.run config dampedMax flapping Node.start))
  = Node.emitted (Node.run config dampedMax flapping Node.start)
    ++ [Node.DampedLimitExceededEvent].
Proof.
  assert (Node.taskOf 0
            (Damper.timers
               (Node.damper (Node.run config dampedMax flapping Node.start)))
          = Some Timers.DampTimerTask) as H1 by reflexivity.
  assert (Node.lessThan (Node.getDampedPercentage saturated) dampedMax
          = false) as H2 by reflexivity.
  refine (conj H1 (conj H2 _)).
  exact (proj1 (proj2 (skipped_round_is_not_rescheduled config dampedMax 0
                         saturated clock
                         (Node.run config dampedMax flapping Node.start)
                         H1 (or_introl H2)))).
Defined.

Lemma inconclusive_round_changes_nothing_witness :
  nth_error (Node.flights (Node.run config dampedMax oneLow Node.start)) 0
  = Some askedOnce /\
  callbackLive (Node.closure askedOnce) = true /\
  Node.damper
    (Node.reply config 0 observerB (Answered (plain 50)) clock
       (Node.run config dampedMax oneLow Node.start))
  = Node.damper (Node.run config dampedMax oneLow Node.start).
Proof.
  assert (nth_error
            (Node.flights (Node.run config dampedMax oneLow Node.start)) 0
          = Some askedOnce) as H1 by reflexivity.
  assert (callbackLive (Node.closure askedOnce) = true) as H2
    by reflexivity.
  refine (conj H1 (conj H2 _)).
  refine (proj1 (inconclusive_round_changes_nothing config 0 observerB
                   (Answered (plain 50)) clock
                   (Node.run config dampedMax oneLow Node.start)
                   askedOnce H1 H2 _ _)).
  - simpl. lia.
  - reflexivity.
Defined.

Lemma expiry_removes_exactly_the_overdue_witness :
  JsObject.wf
    (Damper.dampedMembers (Damper._dampMember config y 0 Damper.new)) /\
  nth_error
    (JsObject.keys
       (Damper.dampedMembers (Damper._dampMember config y 0 Damper.new))) 0
  = Some y /\
  JsObject.get y
    (Damper.dampedMembers (Damper._dampMember config y 0 Damper.new))
  = Some (Damper.mkDamping 0) /\
  (JsObject.get y
     (Damper.dampedMembers
        (fst (Damper._expireDampedMembers config (fun _ => 900)
                (Damper._dampMember config y 0 Damper.new))))
   = Some (Damper.mkDamping 0) <->
   900 - 0 < dampScoringSuppressDuration config).
Proof.
  assert (JsObject.wf
            (Damper.dampedMembers (Damper._dampMember config y 0 Damper.new)))
    as H1 by (repeat constructor; intros []).
  refine (conj H1 (conj eq_refl (conj eq_refl _))).
  exact (proj2 (expiry_removes_exactly_the_overdue config (fun _ => 900)
                  (Damper._dampMember config y 0 Damper.new) 0%nat y
                  (Damper.mkDamping 0) H1 eq_refl eq_refl)).
Defined.

Lemma fanout_calls_back_exactly_once_witness :
  1 <= 2 <= Z.of_nat (List.length observers) /\
  Permutation (map fst replies) (map Membership.address observers) /\
  invocations (deliver [x] 2 replies (_fanoutDampReqs [x] observers 2)) =
    [Results [enrich observerA (plain 150); enrich observerC (gossiping 200)]].
Proof.
  assert (1 <= 2 <= Z.of_nat (List.length observers)) as H1
    by (simpl; lia).
  assert (Permutation (map fst replies) (map Membership.address observers))
    as H2 by exact (perm_swap observerA observerB [observerC]).
  refine (conj H1 (conj H2 _)).
  exact (proj1 (proj2
           (fanout_calls_back_exactly_once [x] observers 2 replies H1 H2))).
Defined.


End FurtherInstances.
